(** * Collaborative-editing session state: [src/collab/index.js]

    A shallow embedding of the [collab] module: the session state
    [CollabState], the accumulator [unconfirmedFrom], the protocol handler
    [receiveAction], the plugin constructor [collab] with its state field
    ([init], [applyAction]) and the outbound accessor [sendableSteps].

    Conventions of the embedding
    - JavaScript numbers that the module only counts with (versions, client
      identifiers) are integers [Z]; array lengths and indices are [nat].
      Loose equality [==] between two numbers is equality of integers.
    - A [RopeSequence] is the list of its elements: [slice n] is [drop n]
      (the library clamps both ends), [append] is [++], [map] is [map],
      [length] is [length].
    - The module mutates the transform it obtains from [state.tr]; here the
      transform is threaded through the calls that change it.
    - A call that may throw returns a [completion]: a value or the thrown
      exception. Exceptions thrown by the step/transform collaborators
      ([Raised]) are kept apart from the [TypeError]s the language itself
      raises while running the module's own statements. *)

From stdpp Require Import base numbers option list strings.

Open Scope Z_scope.

(** ** Completions of JavaScript evaluations *)

Inductive TypeErrorKind :=
  | AssignmentToConstant   (* assignment to a [const] binding *)
  | PropertyOfUndefined.   (* method call on [undefined] *)

Inductive exn (E : Type) :=
  | TypeError (k : TypeErrorKind)
  | Raised (e : E).
Arguments TypeError {E} k.
Arguments Raised {E} e.

Inductive completion (E A : Type) :=
  | Ok (a : A)
  | Throw (x : exn E).
Arguments Ok {E A} a.
Arguments Throw {E A} x.

#[global] Instance completion_ret {E} : MRet (completion E) := fun _ a => Ok a.
#[global] Instance completion_bind {E} : MBind (completion E) :=
  fun _ _ f c => match c with Ok a => f a | Throw x => Throw x end.

(** A call into a collaborator: what it raises propagates unchanged. *)
Definition call {E A} (r : E + A) : completion E A :=
  match r with inl e => Throw (Raised e) | inr a => Ok a end.

(** [o.m(...)] where [o] is the result of an array read: reading past the
    end gives [undefined], and calling a method on it is a [TypeError]. *)
Definition defined {E A} (o : option A) : completion E A :=
  match o with Some a => Ok a | None => Throw (TypeError PropertyOfUndefined) end.

(** [for (let i = start; i < bound; i++) body]: at most [fuel] iterations. *)
Fixpoint for_loop {E St : Type} (fuel i bound : nat)
    (body : nat → St → completion E St) (s : St) : completion E St :=
  match fuel with
  | O => Ok s
  | S fuel' =>
      if bool_decide (i < bound)%nat
      then s' ← body i s; for_loop fuel' (S i) bound body s'
      else Ok s
  end.

(** Kinds of bindings: [x = e] on a [const] binding throws. *)
Inductive binding_kind := const_binding | let_binding.

Definition assign {E A} (k : binding_kind) (v : A) : completion E A :=
  match k with
  | const_binding => Throw (TypeError AssignmentToConstant)
  | let_binding => Ok v
  end.

(** ** The step/transform collaborators

    [index.js] requires [./rebase] and works on the steps and transforms of
    the document model; none of them is part of the module. They are taken
    as an interface: a transform exposes [steps] and [docs], a step can be
    inverted against a document, a transform can take one more step, and
    [rebaseSteps] reconciles local with remote steps. Each may raise. *)

Class Collaborators := {
  Step : Type;
  Doc : Type;
  Transform : Type;
  Err : Type;
  (* transform.steps, transform.docs *)
  Transform_steps : Transform → list Step;
  Transform_docs : Transform → list Doc;
  (* step.invert(doc); the argument is [None] when [docs[i]] is undefined *)
  Step_invert : Step → option Doc → Err + Step;
  (* transform.step(step) *)
  Transform_step : Transform → Step → Err + Transform;
  (* rebaseSteps(transform, steps, inverted, inside) *)
  rebaseSteps : Transform → list Step → list Step → list Step → Err + Transform
}.

Section Collab.
Context `{C : Collaborators}.

Local Abbreviation result := (completion Err).

(** ** Data *)

(** An element of the pending queue: [{step, inverted}]. *)
Record Entry := { step : Step; inverted : Step }.

(** [class CollabState { constructor(version, unconfirmed) }] *)
Record CollabState := { version : Z; unconfirmed : list Entry }.

(** The part of the editor state the module reads: [state.collab] and
    [state.tr]. *)
Record EditorState := { state_collab : CollabState; state_tr : Transform }.

(** Modelled from the spec: [transform.action(options)] of the editor
    transform is not part of the module; following the spec's sync action
    it builds the action of type "transform" that carries the transform and
    the given options. The other actions the state field sees are
    "collabConfirm" and actions of any other type. An absent property is
    [None]. *)
Inductive Action :=
  | TransformAction (transform : Transform) (rebased : option nat)
      (addToHistory : option bool) (newCollabState : option CollabState)
      (interaction : option bool)
  | CollabConfirm (collabState : CollabState)
  | OtherAction.

(** ** [unconfirmedFrom] *)

Definition unconfirmedFrom (transform : Transform) (start : option nat)
    : result (list Entry) :=
  let start := default 0%nat start in
  let steps := Transform_steps transform in
  for_loop (length steps - start) start (length steps)
    (fun i add =>
       s ← defined (steps !! i);
       inv ← call (Step_invert s (Transform_docs transform !! i));
       Ok (add ++ [{| step := s; inverted := inv |}]))
    [].

(** ** [receiveAction] *)

(** [while (ours < clientIDs.length && clientIDs[ours] == ourID) ++ours] *)
Fixpoint ours_loop (clientIDs : list Z) (ourID : Z) (fuel ours : nat) : nat :=
  match fuel with
  | O => ours
  | S fuel' =>
      if bool_decide (ours < length clientIDs)%nat
         && match clientIDs !! ours with
            | Some id => bool_decide (id = ourID)
            | None => false
            end
      then ours_loop clientIDs ourID fuel' (S ours)
      else ours
  end.

Definition ours_prefix (clientIDs : list Z) (ourID : Z) : nat :=
  ours_loop clientIDs ourID (length clientIDs) 0.

(** [for (let i = 0; i < steps.length; i++) transform.step(steps[i])].
    The read [steps[i]] is within bounds in every round. *)
Definition apply_steps (transform : Transform) (steps : list Step)
    : result Transform :=
  for_loop (length steps) 0 (length steps)
    (fun i transform =>
       s ← defined (steps !! i);
       call (Transform_step transform s))
    transform.

(** Lines 58-68 of [receiveAction]: the statements after the early return.
    [unconfirmed] and [steps] are the queue and the batch after the
    self-echo prefix has been dropped. *)
Definition integrate (state : EditorState) (version : Z)
    (unconfirmed : list Entry) (steps : list Step) : result Action :=
  let nUnconfirmed := length unconfirmed in
  let transform := state_tr state in
  transform ←
    match nUnconfirmed with
    | O => apply_steps transform steps
    | _ => call (rebaseSteps transform (map step unconfirmed)
                   (map inverted unconfirmed) steps)
    end;
  unconfirmed ←
    unconfirmedFrom transform (Some (nUnconfirmed + length steps)%nat);
  let newCollabState := {| version := version; unconfirmed := unconfirmed |} in
  Ok (TransformAction transform (Some nUnconfirmed) (Some false)
        (Some newCollabState) (Some false)).

Definition receiveAction (state : EditorState) (steps : list Step)
    (clientIDs : list Z) (ourID : Z) : result Action :=
  let collab := state_collab state in
  let version := version collab + Z.of_nat (length steps) in
  let ours := ours_prefix clientIDs ourID in
  let unconfirmed := drop ours (unconfirmed collab) in
  let steps := match ours with O => steps | _ => drop ours steps end in
  match length steps with
  | O => Ok (CollabConfirm {| version := version; unconfirmed := unconfirmed |})
  | _ => integrate state version unconfirmed steps
  end.

(** ** The plugin *)

Record Options := { opt_version : option Z; opt_clientID : option Z }.

(** [{version, steps, clientID}] as returned by [sendableSteps]. *)
Record Sendable := {
  send_version : Z;
  send_steps : list Step;
  send_clientID : Z
}.

(** [applyAction({collab}, action)] of the state field. *)
Definition applyAction (state : EditorState) (action : Action)
    : result CollabState :=
  let collab := state_collab state in
  match action with
  | TransformAction transform _ _ newCollabState _ =>
      match newCollabState with
      | Some cs => Ok cs
      | None =>
          add ← unconfirmedFrom transform None;
          Ok {| version := version collab;
                unconfirmed := unconfirmed collab ++ add |}
      end
  | CollabConfirm collabState => Ok collabState
  | OtherAction => Ok collab
  end.

Definition sendableSteps (clientID : Z) (state : EditorState) : option Sendable :=
  match length (unconfirmed (state_collab state)) with
  | O => None
  | _ => Some {| send_version := version (state_collab state);
                 send_steps := map step (unconfirmed (state_collab state));
                 send_clientID := clientID |}
  end.

(** The object [collab(options)] returns. *)
Record Plugin := {
  init : unit → CollabState;
  plugin_applyAction : EditorState → Action → result CollabState;
  clientID : Z;
  plugin_receiveAction : EditorState → list Step → list Z → result Action;
  plugin_sendableSteps : EditorState → option Sendable
}.

(** [collab(options)]. [options] is [None] when the argument is absent;
    [random] is the value of [Math.floor(Math.random() * 0xFFFFFFFF)] at
    this call. [clientID] is declared with [const], so the assignment of the
    default is an assignment to a constant. *)
Definition collab (options : option Options) (random : Z) : result Plugin :=
  let clientID := options ≫= opt_clientID in
  clientID ←
    match clientID with
    | None => assign const_binding random
    | Some id => Ok id
    end;
  Ok {| init := fun _ =>
          {| version := default 0 (options ≫= opt_version); unconfirmed := [] |};
        plugin_applyAction := applyAction;
        clientID := clientID;
        plugin_receiveAction := fun state steps clientIDs =>
          receiveAction state steps clientIDs clientID;
        plugin_sendableSteps := sendableSteps clientID |}.

End Collab.

Arguments Entry {C}.
Arguments CollabState {C}.
Arguments EditorState {C}.
Arguments Action {C}.
Arguments Sendable {C}.
Arguments Plugin {C}.

(** ** Reading an action *)

(** The session state an action carries: [collabState] of a confirm
    action, [newCollabState] of a transform action. *)
Definition action_collabState `{C : Collaborators} (a : Action) : option CollabState :=
  match a with
  | TransformAction _ _ _ newCollabState _ => newCollabState
  | CollabConfirm collabState => Some collabState
  | OtherAction => None
  end.

(** ** List views of the loops, used to reason about them *)

(** The loop body run over a list of indices. *)
Fixpoint foldM {E St : Type} (body : nat → St → completion E St)
    (l : list nat) (s : St) : completion E St :=
  match l with
  | [] => Ok s
  | i :: l' => s' ← body i s; foldM body l' s'
  end.

(** One result per index, in order; the first exception wins. *)
Fixpoint collect {E A : Type} (f : nat → completion E A) (l : list nat)
    : completion E (list A) :=
  match l with
  | [] => Ok []
  | i :: l' => x ← f i; xs ← collect f l'; Ok (x :: xs)
  end.

(** Length of the longest prefix of [l] whose elements all equal [id]. *)
Fixpoint prefix_length (id : Z) (l : list Z) : nat :=
  match l with
  | x :: l' => if bool_decide (x = id) then S (prefix_length id l') else O
  | [] => O
  end.

(** The collaborators of an instance never raise. *)
Definition never_raise (C : Collaborators) : Prop :=
  (∀ s d, ∃ s', Step_invert s d = inr s')
  ∧ (∀ tr s, ∃ tr', Transform_step tr s = inr tr')
  ∧ (∀ tr l i r, ∃ tr', rebaseSteps tr l i r = inr tr').

(** The element [unconfirmedFrom] pushes at index [i]. *)
Definition entry_at `{C : Collaborators} (transform : Transform) (i : nat)
    : completion Err Entry :=
  s ← defined (Transform_steps transform !! i);
  inv ← call (Step_invert s (Transform_docs transform !! i));
  Ok {| step := s; inverted := inv |}.

(** [add] lists the steps of [transform] from index [start] to the end,
    each with its inverse against the document preceding it. *)
Definition entries_from `{C : Collaborators} (transform : Transform)
    (start : nat) (add : list Entry) : Prop :=
  length add = (length (Transform_steps transform) - start)%nat
  ∧ ∀ j e, add !! j = Some e →
      Transform_steps transform !! (start + j)%nat = Some (step e)
      ∧ Step_invert (step e) (Transform_docs transform !! (start + j)%nat)
        = inr (inverted e).

(** The transform the collaborators leave behind: the remote steps applied
    directly when nothing is pending, the rebase otherwise. *)
Definition resulting_transform `{C : Collaborators} (state : EditorState)
    (queue : list Entry) (steps : list Step) (transform : Transform) : Prop :=
  match queue with
  | [] => apply_steps (state_tr state) steps = Ok transform
  | _ => rebaseSteps (state_tr state) (map step queue)
           (map inverted queue) steps = inr transform
  end.

(** ** The accessor over a store of objects

    In the editor the state, its [collab] field and the pending queue are
    objects that any function holding a reference may change. To say that
    [sendableSteps] changes none of them, it is embedded a second time as a
    computation over a store: objects live at locations, a computation
    reads them, allocates new ones and may overwrite them, and returns its
    value together with the store it leaves. *)

(** Locations of the store. *)
Abbreviation loc := nat.

Section Store.
Context `{C : Collaborators}.

(** The objects the accessor meets: the editor state (its [collab]
    property), a [CollabState], a [RopeSequence], an array of steps, and
    the object [{version, steps, clientID}]. *)
Inductive object :=
  | EditorStateObj (collab_ref : loc)
  | CollabStateObj (version_val : Z) (unconfirmed_ref : loc)
  | RopeSequenceObj (items : list Entry)
  | ArrayObj (elements : list Step)
  | PayloadObj (version_val : Z) (steps_ref : loc) (clientID_val : Z).

Definition store := list object.

(** A computation over the store: a value and the store left behind, or
    an exception. *)
Definition Heap (A : Type) : Type := store → completion Err (A * store).

Definition heap_ret {A} (a : A) : Heap A := fun σ => Ok (a, σ).

Definition heap_bind {A B} (c : Heap A) (f : A → Heap B) : Heap B :=
  fun σ => match c σ with
           | Ok (a, σ') => f a σ'
           | Throw x => Throw x
           end.

Definition heap_throw {A} (k : TypeErrorKind) : Heap A :=
  fun _ => Throw (TypeError k).

(** A new object, at a location not used before. *)
Definition alloc (o : object) : Heap loc :=
  fun σ => Ok (length σ, σ ++ [o]).

(** An assignment to a property: the object at [l] is replaced. *)
Definition overwrite (l : loc) (o : object) : Heap unit :=
  fun σ => Ok (tt, <[l := o]> σ).

Definition deref (l : loc) : Heap object :=
  fun σ => match σ !! l with
           | Some o => Ok (o, σ)
           | None => Throw (TypeError PropertyOfUndefined)
           end.

(** [state.collab] *)
Definition get_collab (state : loc) : Heap loc :=
  heap_bind (deref state) (fun o =>
    match o with
    | EditorStateObj c => heap_ret c
    | _ => heap_throw PropertyOfUndefined
    end).

(** [collab.version] *)
Definition get_version (collab : loc) : Heap Z :=
  heap_bind (deref collab) (fun o =>
    match o with
    | CollabStateObj v _ => heap_ret v
    | _ => heap_throw PropertyOfUndefined
    end).

(** [collab.unconfirmed] *)
Definition get_unconfirmed (collab : loc) : Heap loc :=
  heap_bind (deref collab) (fun o =>
    match o with
    | CollabStateObj _ u => heap_ret u
    | _ => heap_throw PropertyOfUndefined
    end).

(** [rope.length] *)
Definition rope_length (rope : loc) : Heap nat :=
  heap_bind (deref rope) (fun o =>
    match o with
    | RopeSequenceObj items => heap_ret (length items)
    | _ => heap_throw PropertyOfUndefined
    end).

(** [rope.map(s => s.step)]: the results in a new array. *)
Definition rope_map_step (rope : loc) : Heap loc :=
  heap_bind (deref rope) (fun o =>
    match o with
    | RopeSequenceObj items => alloc (ArrayObj (map step items))
    | _ => heap_throw PropertyOfUndefined
    end).

(** [sendableSteps(state)] of the plugin whose identifier is [clientID]:
    [None] is [null], [Some l] the new object at [l]. *)
Definition sendableSteps_store (clientID : Z) (state : loc) : Heap (option loc) :=
  heap_bind (get_collab state) (fun collab =>
  heap_bind (get_unconfirmed collab) (fun unconfirmed =>
  heap_bind (rope_length unconfirmed) (fun n =>
  match n with
  | O => heap_ret None
  | _ =>
      heap_bind (get_collab state) (fun collab =>
      heap_bind (get_version collab) (fun version =>
      heap_bind (get_collab state) (fun collab =>
      heap_bind (get_unconfirmed collab) (fun unconfirmed =>
      heap_bind (rope_map_step unconfirmed) (fun steps =>
      heap_bind (alloc (PayloadObj version steps clientID)) (fun payload =>
      heap_ret (Some payload)))))))
  end))).

(** What a result of [sendableSteps_store] holds, read off the store:
    [Some None] for [null], [Some (Some p)] for an object with the
    contents [p]; [None] when the reference leads to no such object. *)
Definition payload_view (σ : store) (r : option loc) : option (option Sendable) :=
  match r with
  | None => Some None
  | Some l =>
      match σ !! l with
      | Some (PayloadObj v s c) =>
          match σ !! s with
          | Some (ArrayObj elements) =>
              Some (Some {| send_version := v; send_steps := elements;
                            send_clientID := c |})
          | _ => None
          end
      | _ => None
      end
  end.

(** The store holds at [state] an editor state whose session state is
    [cs]. *)
Definition holds_state (σ : store) (state : loc) (cs : CollabState) : Prop :=
  ∃ c u, σ !! state = Some (EditorStateObj c)
         ∧ σ !! c = Some (CollabStateObj (version cs) u)
         ∧ σ !! u = Some (RopeSequenceObj (unconfirmed cs)).

(** Every object of [σ] is in [σ'], unchanged, at its location. *)
Definition preserved (σ σ' : store) : Prop :=
  ∀ l o, σ !! l = Some o → σ' !! l = Some o.

End Store.

Arguments object {C}.
Arguments store {C}.
Arguments Heap {C} A.

(** ** Two instances of the collaborators, for concrete runs *)

(** A document that is a counter: a step adds its number, its inverse
    subtracts it, and steps commute, so rebasing local steps over remote
    ones undoes the local steps, applies the remote ones and redoes the
    local ones unchanged. Nothing raises. *)
Module Counter.

Record transform := { doc : Z; steps : list Z; docs : list Z }.

Definition do_step (tr : transform) (s : Z) : transform :=
  {| doc := doc tr + s; steps := steps tr ++ [s]; docs := docs tr ++ [doc tr] |}.

Definition rebase (tr : transform) (local inverted inside : list Z) : transform :=
  fold_left do_step (rev inverted ++ inside ++ local) tr.

#[export] Instance model : Collaborators := {|
  Step := Z;
  Doc := Z;
  Transform := transform;
  Err := Empty_set;
  Transform_steps := steps;
  Transform_docs := docs;
  Step_invert := fun s _ => inr (- s);
  Transform_step := fun tr s => inr (do_step tr s);
  rebaseSteps := fun tr local inverted inside => inr (rebase tr local inverted inside)
|}.

(** A fresh transform over the document [d], as [state.tr] gives it. *)
Definition fresh (d : Z) : transform := {| doc := d; steps := []; docs := [] |}.

End Counter.

(** Collaborators that refuse every request: any call raises. *)
Module Refusing.

#[export] Instance model : Collaborators := {|
  Step := Z;
  Doc := unit;
  Transform := list Z;
  Err := unit;
  Transform_steps := fun tr => tr;
  Transform_docs := fun _ => [];
  Step_invert := fun _ _ => inl tt;
  Transform_step := fun _ _ => inl tt;
  rebaseSteps := fun _ _ _ _ => inl tt
|}.

End Refusing.

(** Sessions used in the concrete runs. *)

(** A pending entry of the counter model. *)
Definition counter_entry (s inv : Z) : Entry (C:=Counter.model) :=
  @Build_Entry Counter.model s inv.

(** A session of the counter model used in the concrete runs below:
    version 5, two pending steps [+3] and [+4] made on the document [0], a
    fresh transform over the current document [7]. *)
Definition counter_session : EditorState (C:=Counter.model) :=
  @Build_EditorState Counter.model
    (@Build_CollabState Counter.model 5
       [counter_entry 3 (-3); counter_entry 4 (-4)])
    (Counter.fresh 7).

(** The same session with nothing pending. *)
Definition counter_synced : EditorState (C:=Counter.model) :=
  @Build_EditorState Counter.model
    (@Build_CollabState Counter.model 5 []) (Counter.fresh 0).

(** A session whose collaborators refuse every call: one pending step. *)
Definition refusing_session : EditorState (C:=Refusing.model) :=
  @Build_EditorState Refusing.model
    (@Build_CollabState Refusing.model 5 [@Build_Entry Refusing.model 3 (-3)])
    [].

(** The session [counter_session] laid out in a store: the editor state at
    0, its session state at 1, the pending queue at 2. *)
Definition counter_store : store (C:=Counter.model) :=
  [@EditorStateObj Counter.model 1%nat;
   @CollabStateObj Counter.model 5 2%nat;
   @RopeSequenceObj Counter.model [counter_entry 3 (-3); counter_entry 4 (-4)]].

(** * Ordered maps: [src/util/orderedmap.js]

    An [OrderedMap] holds one array, [content], in which keys and values
    alternate: [content[2i]] is the key of the [i]-th binding and
    [content[2i+1]] its value. The array is modelled as it is, a list of
    JavaScript values, and the methods as they index it. *)

Module Orderedmap.

(** The values that occur: [undefined], strings, and the values of an
    interface that says how the remaining ones compare and convert. *)
Inductive jsval (V : Type) :=
  | Undefined
  | Str (s : string)
  | Other (v : V).
Arguments Undefined {V}.
Arguments Str {V} s.
Arguments Other {V} v.

Class Values := {
  V : Type;
  (* [a == b] when one side at least is neither undefined nor a string *)
  other_loose_eq : jsval V → jsval V → bool;
  (* [!!v] *)
  other_truthy : V → bool
}.

Section Model.
Context `{Vs : Values}.

Local Abbreviation value := (jsval V).

(** [a == b] *)
Definition loose_eq (a b : value) : bool :=
  match a, b with
  | Str s, Str t => bool_decide (s = t)
  | Undefined, Undefined => true
  | Undefined, Str _ | Str _, Undefined => false
  | _, _ => other_loose_eq a b
  end.

(** [!!a]: the empty string is falsy. *)
Definition truthy (a : value) : bool :=
  match a with
  | Undefined => false
  | Str s => negb (bool_decide (s = ""%string))
  | Other v => other_truthy v
  end.

(** [array[i]]: [undefined] outside the array. *)
Definition read (l : list value) (i : Z) : value :=
  if bool_decide (0 ≤ i) then default Undefined (l !! Z.to_nat i) else Undefined.

(** [array[i] = x]: past the end the array grows, the positions in between
    read as [undefined]; a negative [i] names a property, not an element. *)
Definition write (l : list value) (i : Z) (x : value) : list value :=
  if bool_decide (i < 0) then l
  else
    let n := Z.to_nat i in
    if bool_decide (n < length l)%nat then <[n := x]> l
    else l ++ replicate (n - length l) Undefined ++ [x].

(** [array.splice(start, count)]: what is left of the array. A negative
    [start] counts from the end. *)
Definition splice (l : list value) (start : Z) (count : nat) : list value :=
  let from :=
    if bool_decide (start < 0)
    then Z.to_nat (Z.max (Z.of_nat (length l) + start) 0)
    else Z.to_nat start in
  take from l ++ drop (from + count) l.

(** [class OrderedMap { constructor(content) }] *)
Record OrderedMap := { content : list value }.

(** [for (let i = 0; i < this.content.length; i += 2)
      if (this.content[i] == key) return i
    return -1] *)
Fixpoint find_loop (content : list value) (key : value) (fuel i : nat) : Z :=
  match fuel with
  | O => -1
  | S fuel' =>
      if bool_decide (i < length content)%nat
      then if loose_eq (read content (Z.of_nat i)) key then Z.of_nat i
           else find_loop content key fuel' (i + 2)
      else -1
  end.

Definition find (this : OrderedMap) (key : value) : Z :=
  find_loop (content this) key (length (content this)) 0.

Definition get (this : OrderedMap) (key : value) : value :=
  let found := find this key in
  if bool_decide (found = -1) then Undefined
  else read (content this) (found + 1).

Definition remove (this : OrderedMap) (key : value) : OrderedMap :=
  let found := find this key in
  if bool_decide (found = -1) then this
  else
    let content := content this in
    {| content := splice content found 2 |}.

(** [update(key, value, newKey)]; [newKey] is [Undefined] when omitted. *)
Definition update (this : OrderedMap) (key val newKey : value) : OrderedMap :=
  let self :=
    if truthy newKey && negb (loose_eq newKey key)
    then remove this newKey else this in
  let found := find self key in
  let content := content self in
  if bool_decide (found = -1)
  then {| content := content ++ [if truthy newKey then newKey else key; val] |}
  else
    let content := write content (found + 1) val in
    let content := if truthy newKey then write content found newKey else content in
    {| content := content |}.

Definition addToStart (this : OrderedMap) (key val : value) : OrderedMap :=
  {| content := [key; val] ++ content (remove this key) |}.

Definition addToEnd (this : OrderedMap) (key val : value) : OrderedMap :=
  let content := content (remove this key) in
  {| content := content ++ [key; val] |}.

(** [for (let i = 0; i < this.content.length; i += 2)
      f(this.content[i], this.content[i + 1])];
    what [f] does to the variables it closes over is the state [s]. *)
Fixpoint forEach_loop {St : Type} (content : list value)
    (f : value → value → St → St) (fuel i : nat) (s : St) : St :=
  match fuel with
  | O => s
  | S fuel' =>
      if bool_decide (i < length content)%nat
      then forEach_loop content f fuel' (i + 2)
             (f (read content (Z.of_nat i)) (read content (Z.of_nat i + 1)) s)
      else s
  end.

Definition forEach {St : Type} (this : OrderedMap)
    (f : value → value → St → St) (s : St) : St :=
  forEach_loop (content this) f (length (content this)) 0 s.

(** [get size() { return this.content.length >> 1 }] *)
Definition size (this : OrderedMap) : nat := Nat.shiftr (length (content this)) 1.

(** What the methods taking [union<Object, OrderedMap>] may be given:
    [null] or [undefined], an ordered map, or a plain object, listed by its
    enumerable properties in enumeration order. *)
Inductive maplike :=
  | Nullish
  | AMap (m : OrderedMap)
  | AnObject (props : list (string * value)).

(** [object[prop]] *)
Fixpoint property (props : list (string * value)) (prop : string) : value :=
  match props with
  | [] => Undefined
  | (k, v) :: props' => if bool_decide (k = prop) then v else property props' prop
  end.

(** [static from(value)] *)
Definition from (val : maplike) : OrderedMap :=
  match val with
  | AMap m => m
  | Nullish => {| content := [] |}
  | AnObject props =>
      {| content :=
           fold_left (fun content prop => content ++ [Str prop; property props prop])
             (props.*1) [] |}
  end.

Definition subtract (this : OrderedMap) (map : maplike) : OrderedMap :=
  forEach (from map) (fun key _ result => remove result key) this.

(** [!map.size]: reading [size] of [null] or [undefined] throws; an
    ordered map answers with its getter, an object with its property. *)
Definition no_size (map : maplike) : completion Empty_set bool :=
  match map with
  | Nullish => Throw (TypeError PropertyOfUndefined)
  | AMap m => Ok (bool_decide (size m = O))
  | AnObject props => Ok (negb (truthy (property props "size")))
  end.

Definition prepend (this : OrderedMap) (map : maplike)
    : completion Empty_set OrderedMap :=
  empty ← no_size map;
  if (empty : bool) then Ok this
  else
    let map := from map in
    Ok {| content := content map ++ content (subtract this (AMap map)) |}.

Definition append (this : OrderedMap) (map : maplike)
    : completion Empty_set OrderedMap :=
  empty ← no_size map;
  if (empty : bool) then Ok this
  else
    let map := from map in
    Ok {| content := content (subtract this (AMap map)) ++ content map |}.

End Model.

Arguments OrderedMap {Vs}.
Arguments maplike {Vs}.

(** ** Maps seen as lists of bindings *)

Section Bindings.
Context `{Vs : Values}.

(** The array of the bindings [l]: [k1, v1, k2, v2, ...]. *)
Fixpoint flat (l : list (string * jsval V)) : list (jsval V) :=
  match l with
  | [] => []
  | (k, v) :: l' => Str k :: v :: flat l'
  end.

(** The map whose bindings are [l], in order. *)
Definition of_bindings (l : list (string * jsval V)) : OrderedMap :=
  {| content := flat l |}.

(** Position of the first binding of [k]. *)
Fixpoint first_index (k : string) (l : list (string * jsval V)) : option nat :=
  match l with
  | [] => None
  | (k', _) :: l' =>
      if bool_decide (k' = k) then Some O else S <$> first_index k l'
  end.

(** [l] without its first binding of [k]. *)
Fixpoint without (k : string) (l : list (string * jsval V))
    : list (string * jsval V) :=
  match l with
  | [] => []
  | (k', v) :: l' => if bool_decide (k' = k) then l' else (k', v) :: without k l'
  end.

(** [l] with its first binding of [k] replaced by [p], or with [p] added
    at the end when [k] has no binding. *)
Definition put (k : string) (p : string * jsval V)
    (l : list (string * jsval V)) : list (string * jsval V) :=
  match first_index k l with
  | Some j => <[j := p]> l
  | None => l ++ [p]
  end.

(** The bindings after [update(k, v)] without a new key. *)
Definition updated (k : string) (v : jsval V) (l : list (string * jsval V))
    : list (string * jsval V) :=
  put k (k, v) l.

(** The bindings after [update(k, v, k2)] with a new key [k2]. *)
Definition renamed (k : string) (v : jsval V) (k2 : string)
    (l : list (string * jsval V)) : list (string * jsval V) :=
  put k (k2, v) (if bool_decide (k2 = k) then l else without k2 l).

(** [l] after the first binding of each key of [l'] has been taken out,
    one key of [l'] after the other. *)
Definition minus (l l' : list (string * jsval V)) : list (string * jsval V) :=
  fold_left (fun acc p => without p.1 acc) l' l.

End Bindings.

(** A small universe of values: [undefined], strings and [null]. *)
#[export] Instance with_null : Values := {|
  V := unit;
  other_loose_eq := fun a b =>
    match a, b with
    | Str _, _ | _, Str _ => false
    | _, _ => true
    end;
  other_truthy := fun _ => false
|}.

(** Three bindings with distinct keys, and two more, for concrete runs. *)
Definition sample : list (string * jsval (@V with_null)) :=
  [("a"%string, Str "x"); ("b"%string, Other ()); ("c"%string, Undefined)].

Definition sample' : list (string * jsval (@V with_null)) :=
  [("c"%string, Str "z"); ("d"%string, Str "w")].

End Orderedmap.

(** * Facts about completions and loops *)

Section Completion.
Context {E : Type}.

Lemma bind_Ok_inv {A B} (c : completion E A) (f : A → completion E B) b :
  c ≫= f = Ok b ↔ ∃ a, c = Ok a ∧ f a = Ok b.
Proof.
  destruct c as [a|x]; simpl; split.
  - intros Hf. by exists a.
  - by intros (a' & [= <-] & Hf).
  - done.
  - by intros (a' & ? & _).
Qed.

Lemma bind_Throw_inv {A B} (c : completion E A) (f : A → completion E B) x :
  c ≫= f = Throw x ↔ c = Throw x ∨ ∃ a, c = Ok a ∧ f a = Throw x.
Proof.
  destruct c as [a|y]; simpl; split.
  - intros Hf. right. by exists a.
  - intros [?|(a' & [= <-] & Hf)]; [discriminate | assumption].
  - intros [= <-]. by left.
  - intros [[= ->]|(a' & ? & _)]; [reflexivity | discriminate].
Qed.

Lemma call_Ok_inv {A} (r : E + A) a : call r = Ok a ↔ r = inr a.
Proof. destruct r; simpl; split; congruence. Qed.

Lemma call_no_TypeError {A} (r : E + A) k : call r ≠ Throw (TypeError k).
Proof. by destruct r. Qed.

Lemma defined_Ok_inv {A} (o : option A) a : defined (E:=E) o = Ok a ↔ o = Some a.
Proof. destruct o; simpl; split; congruence. Qed.

(** With enough fuel the loop runs its body over [i, i+1, ..., bound-1]. *)
Lemma for_loop_foldM {St} fuel i bound (body : nat → St → completion E St) s :
  (bound - i ≤ fuel)%nat →
  for_loop fuel i bound body s = foldM body (seq i (bound - i)) s.
Proof.
  revert i s. induction fuel as [|fuel IH]; intros i s Hfuel; simpl.
  - by replace (bound - i)%nat with O by lia.
  - case_bool_decide as Hi.
    + replace (bound - i)%nat with (S (bound - S i)) by lia. simpl.
      destruct (body i s) as [s'|x]; simpl; [|done].
      apply IH. lia.
    + by replace (bound - i)%nat with O by lia.
Qed.

(** Past that much fuel, more changes nothing: the loop has left through
    its condition. *)
Lemma for_loop_fuel {St} fuel fuel' i bound
    (body : nat → St → completion E St) s :
  (bound - i ≤ fuel)%nat → (bound - i ≤ fuel')%nat →
  for_loop fuel i bound body s = for_loop fuel' i bound body s.
Proof. intros Hf Hf'. by rewrite !for_loop_foldM. Qed.

(** A body that pushes one computed element per round collects them. *)
Lemma foldM_push {A} (f : nat → completion E A)
    (body : nat → list A → completion E (list A)) l acc :
  (∀ i acc, body i acc = x ← f i; Ok (acc ++ [x])) →
  foldM body l acc = xs ← collect f l; Ok (acc ++ xs).
Proof.
  intros Hbody. revert acc. induction l as [|i l IH]; intros acc; simpl.
  - by rewrite app_nil_r.
  - rewrite Hbody. destruct (f i) as [x|e]; simpl; [|done].
    rewrite IH. destruct (collect f l) as [xs|e]; simpl; [|done].
    by rewrite <- app_assoc.
Qed.

Lemma collect_Ok_inv {A} (f : nat → completion E A) l xs :
  collect f l = Ok xs ↔ Forall2 (fun i x => f i = Ok x) l xs.
Proof.
  revert xs. induction l as [|i l IH]; intros xs; simpl.
  - split; [intros [= <-]; constructor | by inversion 1].
  - rewrite bind_Ok_inv. split.
    + intros (x & Hx & Hrest). apply bind_Ok_inv in Hrest as (xs' & Hxs & [= <-]).
      constructor; [done|]. by apply IH.
    + inversion 1 as [|? x ? xs' Hx Hxs]; subst. exists x. split; [done|].
      apply bind_Ok_inv. exists xs'. split; [by apply IH | done].
Qed.

Lemma collect_Throw_inv {A} (f : nat → completion E A) l x :
  collect f l = Throw x → ∃ i, i ∈ l ∧ f i = Throw x.
Proof.
  induction l as [|i l IH]; simpl; [done|].
  rewrite bind_Throw_inv. intros [Hi|(a & _ & Hrest)].
  - exists i. split; [apply elem_of_cons; by left | done].
  - apply bind_Throw_inv in Hrest as [Hl|(? & _ & ?)]; [|done].
    destruct (IH Hl) as (j & Hj & Hfj). exists j.
    split; [apply elem_of_cons; by right | done].
Qed.

Lemma foldM_Throw_inv {St} (body : nat → St → completion E St) l s x :
  foldM body l s = Throw x → ∃ i s', i ∈ l ∧ body i s' = Throw x.
Proof.
  revert s. induction l as [|i l IH]; intros s; simpl; [done|].
  rewrite bind_Throw_inv. intros [Hi|(s' & _ & Hrest)].
  - exists i, s. split; [apply elem_of_cons; by left | done].
  - destruct (IH _ Hrest) as (j & s'' & Hj & Hb). exists j, s''.
    split; [apply elem_of_cons; by right | done].
Qed.

Lemma foldM_total {St} (body : nat → St → completion E St) l s :
  (∀ i s, i ∈ l → ∃ s', body i s = Ok s') → ∃ s', foldM body l s = Ok s'.
Proof.
  revert s. induction l as [|i l IH]; intros s Hbody; simpl; [by eexists|].
  destruct (Hbody i s) as (s' & ->); [apply elem_of_cons; by left|]. simpl.
  apply IH. intros j s'' Hj. apply Hbody. apply elem_of_cons. by right.
Qed.

End Completion.

(** * Facts about the module *)

Section Facts.
Context `{C : Collaborators}.

(** ** The self-echo scan *)

Lemma ours_loop_prefix_length clientIDs ourID fuel ours :
  (length clientIDs - ours ≤ fuel)%nat →
  ours_loop clientIDs ourID fuel ours
  = (ours + prefix_length ourID (drop ours clientIDs))%nat.
Proof.
  revert ours. induction fuel as [|fuel IH]; intros ours Hfuel; simpl.
  - rewrite drop_ge by lia. simpl. lia.
  - destruct (clientIDs !! ours) as [id|] eqn:Hid.
    + pose proof (lookup_lt_Some _ _ _ Hid) as Hlt.
      rewrite (drop_S _ _ _ Hid). simpl.
      rewrite bool_decide_eq_true_2 by done. simpl.
      case_bool_decide; [|lia].
      rewrite IH by lia. lia.
    + rewrite andb_false_r.
      rewrite drop_ge by (by apply lookup_ge_None). simpl. lia.
Qed.

(** The scan has fuel enough: it stops where the loop condition fails. *)
Lemma ours_prefix_eq clientIDs ourID :
  ours_prefix clientIDs ourID = prefix_length ourID clientIDs.
Proof.
  unfold ours_prefix. rewrite ours_loop_prefix_length by lia. by rewrite drop_0.
Qed.

Lemma prefix_length_le id l : (prefix_length id l ≤ length l)%nat.
Proof. induction l as [|x l IH]; simpl; [lia|]. case_bool_decide; lia. Qed.

Lemma prefix_length_lookup id l i :
  (i < prefix_length id l)%nat → l !! i = Some id.
Proof.
  revert i. induction l as [|x l IH]; intros i; simpl; [lia|].
  case_bool_decide as Hx; [|lia]. subst x.
  destruct i as [|i]; simpl; [done|]. intros Hi. apply IH. lia.
Qed.

Lemma prefix_length_stop id l : l !! prefix_length id l ≠ Some id.
Proof.
  induction l as [|x l IH]; simpl; [done|].
  case_bool_decide as Hx; simpl; [done|]. by intros [= ->].
Qed.

Lemma prefix_length_all id l :
  prefix_length id l = length l ↔ Forall (λ x, x = id) l.
Proof.
  induction l as [|x l IH]; simpl.
  - split; [constructor | done].
  - case_bool_decide as Hx; split.
    + intros [= Hl]. constructor; [done | by apply IH].
    + inversion 1; subst. f_equal. by apply IH.
    + done.
    + by inversion 1.
Qed.

Lemma prefix_length_replicate_app id k others :
  Forall (λ x, x ≠ id) others →
  prefix_length id (replicate k id ++ others) = k.
Proof.
  intros Hothers. induction k as [|k IH]; simpl.
  - destruct Hothers as [|x others Hx _]; simpl; [done|].
    by rewrite bool_decide_eq_false_2.
  - rewrite bool_decide_eq_true_2 by done. by rewrite IH.
Qed.

(** ** [unconfirmedFrom] *)

Lemma unconfirmedFrom_collect transform start :
  unconfirmedFrom transform start
  = collect (entry_at transform)
      (seq (default 0%nat start)
           (length (Transform_steps transform) - default 0%nat start)).
Proof.
  unfold unconfirmedFrom. rewrite for_loop_foldM by lia.
  rewrite (foldM_push (entry_at transform)).
  - simpl. by destruct (collect _ _).
  - intros i acc. unfold entry_at.
    destruct (defined _) as [s|x]; simpl; [|done].
    by destruct (call _).
Qed.

Lemma entry_at_Ok_inv transform i e :
  entry_at transform i = Ok e ↔
  Transform_steps transform !! i = Some (step e)
  ∧ Step_invert (step e) (Transform_docs transform !! i) = inr (inverted e).
Proof.
  unfold entry_at. rewrite bind_Ok_inv. split.
  - intros (s & Hs & Hinv). apply defined_Ok_inv in Hs.
    apply bind_Ok_inv in Hinv as (inv & Hinv & [= <-]).
    apply call_Ok_inv in Hinv. by simpl.
  - intros [Hs Hinv]. exists (step e). split; [by apply defined_Ok_inv|].
    rewrite Hinv. simpl. by destruct e.
Qed.

Lemma unconfirmedFrom_Ok transform start add :
  unconfirmedFrom transform start = Ok add ↔
  entries_from transform (default 0%nat start) add.
Proof.
  rewrite unconfirmedFrom_collect, collect_Ok_inv, Forall2_same_length_lookup.
  rewrite length_seq. unfold entries_from. split.
  - intros [Hlen Hall]. split; [done|]. intros j e He.
    apply entry_at_Ok_inv. apply (Hall j); [|done].
    apply lookup_seq. split; [done|]. rewrite Hlen.
    by apply lookup_lt_Some in He.
  - intros [Hlen Hall]. split; [done|]. intros j i e Hi He.
    apply lookup_seq in Hi as [-> _]. apply entry_at_Ok_inv. by apply Hall.
Qed.

Lemma entry_at_no_TypeError transform i k :
  (i < length (Transform_steps transform))%nat →
  entry_at transform i ≠ Throw (TypeError k).
Proof.
  intros Hi. unfold entry_at.
  destruct (lookup_lt_is_Some_2 _ _ Hi) as [s ->]. simpl.
  by destruct (Step_invert _ _).
Qed.

Lemma unconfirmedFrom_no_TypeError transform start k :
  unconfirmedFrom transform start ≠ Throw (TypeError k).
Proof.
  rewrite unconfirmedFrom_collect. intros Hthrow.
  apply collect_Throw_inv in Hthrow as (i & Hi & Hthrow).
  apply elem_of_seq in Hi. revert Hthrow. apply entry_at_no_TypeError. lia.
Qed.

(** An exception of [unconfirmedFrom] is one that [invert] raised. *)
Lemma unconfirmedFrom_Raised transform start e :
  unconfirmedFrom transform start = Throw (Raised e) →
  ∃ i s, Transform_steps transform !! i = Some s
         ∧ Step_invert s (Transform_docs transform !! i) = inl e.
Proof.
  rewrite unconfirmedFrom_collect. intros Hthrow.
  apply collect_Throw_inv in Hthrow as (i & _ & Hthrow).
  exists i. unfold entry_at in Hthrow.
  destruct (Transform_steps transform !! i) as [s|]; simpl in Hthrow; [|done].
  exists s. split; [done|].
  destruct (Step_invert _ _) as [e'|inv]; simpl in Hthrow; congruence.
Qed.

Lemma unconfirmedFrom_total transform start :
  never_raise C → ∃ add, unconfirmedFrom transform start = Ok add.
Proof.
  intros (Hinv & _ & _).
  destruct (unconfirmedFrom transform start) as [add|[k|e]] eqn:Hrun.
  - by exists add.
  - by apply unconfirmedFrom_no_TypeError in Hrun.
  - apply unconfirmedFrom_Raised in Hrun as (i & s & _ & Hraise).
    destruct (Hinv s (Transform_docs transform !! i)) as [s' Hs']. congruence.
Qed.

(** The steps of the collected entries are the steps of the transform
    from [start] on. *)
Lemma entries_from_steps transform start add :
  entries_from transform start add →
  map step add = drop start (Transform_steps transform).
Proof.
  intros [Hlen Hall]. apply list_eq. intros j.
  rewrite list_lookup_fmap, lookup_drop.
  destruct (add !! j) as [e|] eqn:He; simpl.
  - by destruct (Hall j e He) as [-> _].
  - symmetry. apply lookup_ge_None. apply lookup_ge_None in He. lia.
Qed.

(** ** Applying remote steps directly *)

Lemma apply_steps_foldM transform steps :
  apply_steps transform steps
  = foldM (fun i transform =>
             s ← defined (steps !! i); call (Transform_step transform s))
      (seq 0 (length steps)) transform.
Proof.
  unfold apply_steps. rewrite for_loop_foldM by lia. by rewrite Nat.sub_0_r.
Qed.

Lemma apply_steps_no_TypeError transform steps k :
  apply_steps transform steps ≠ Throw (TypeError k).
Proof.
  rewrite apply_steps_foldM. intros Hthrow.
  apply foldM_Throw_inv in Hthrow as (i & tr & Hi & Hthrow).
  apply elem_of_seq in Hi as [_ Hi].
  destruct (lookup_lt_is_Some_2 steps i) as [s Hs]; [lia|].
  rewrite Hs in Hthrow. simpl in Hthrow. by apply call_no_TypeError in Hthrow.
Qed.

(** An exception of the direct application is one that [transform.step]
    raised on a step of the batch. *)
Lemma apply_steps_Raised transform steps e :
  apply_steps transform steps = Throw (Raised e) →
  ∃ tr s, s ∈ steps ∧ Transform_step tr s = inl e.
Proof.
  rewrite apply_steps_foldM. intros Hthrow.
  apply foldM_Throw_inv in Hthrow as (i & tr & _ & Hthrow).
  destruct (steps !! i) as [s|] eqn:Hs; simpl in Hthrow; [|done].
  exists tr, s. split; [by eapply list_elem_of_lookup_2|].
  destruct (Transform_step tr s); simpl in Hthrow; congruence.
Qed.

Lemma apply_steps_total transform steps :
  never_raise C → ∃ transform', apply_steps transform steps = Ok transform'.
Proof.
  intros (_ & Hstep & _).
  destruct (apply_steps transform steps) as [tr'|[k|e]] eqn:Hrun.
  - by exists tr'.
  - by apply apply_steps_no_TypeError in Hrun.
  - apply apply_steps_Raised in Hrun as (tr & s & _ & Hraise).
    destruct (Hstep tr s) as [tr' Htr']. congruence.
Qed.

(** ** The transform path *)

Lemma integrate_Ok_inv state v queue steps a :
  integrate state v queue steps = Ok a ↔
  ∃ transform add,
    resulting_transform state queue steps transform
    ∧ entries_from transform (length queue + length steps) add
    ∧ a = TransformAction transform (Some (length queue)) (Some false)
            (Some {| version := v; unconfirmed := add |}) (Some false).
Proof.
  unfold integrate. rewrite bind_Ok_inv. split.
  - intros (tr & Htr & Hrest).
    apply bind_Ok_inv in Hrest as (add & Hadd & [= <-]).
    apply unconfirmedFrom_Ok in Hadd. exists tr, add. split; [|done].
    destruct queue; simpl in *; [done | by apply call_Ok_inv].
  - intros (tr & add & Htr & Hadd & ->). exists tr. split.
    + destruct queue; simpl in *; [done | by apply call_Ok_inv].
    + apply bind_Ok_inv. exists add. split; [by apply unconfirmedFrom_Ok | done].
Qed.

Lemma integrate_no_TypeError state v queue steps k :
  integrate state v queue steps ≠ Throw (TypeError k).
Proof.
  unfold integrate. intros Hthrow.
  apply bind_Throw_inv in Hthrow as [Hthrow|(tr & _ & Hthrow)].
  - destruct (length queue).
    + by apply apply_steps_no_TypeError in Hthrow.
    + by apply call_no_TypeError in Hthrow.
  - apply bind_Throw_inv in Hthrow as [Hthrow|(add & _ & Hthrow)]; [|done].
    by apply unconfirmedFrom_no_TypeError in Hthrow.
Qed.

Lemma integrate_total state v queue steps :
  never_raise C → ∃ a, integrate state v queue steps = Ok a.
Proof.
  intros Hnever. unfold integrate.
  assert (∃ tr,
    match length queue with
    | O => apply_steps (state_tr state) steps
    | _ => call (rebaseSteps (state_tr state) (map step queue)
                   (map inverted queue) steps)
    end = Ok tr) as [tr ->].
  { destruct (length queue).
    - by apply apply_steps_total.
    - destruct Hnever as (_ & _ & Hrebase).
      destruct (Hrebase (state_tr state) (map step queue)
                  (map inverted queue) steps) as [tr ->]. by exists tr. }
  simpl.
  destruct (unconfirmedFrom_total tr
              (Some (length queue + length steps)%nat) Hnever) as [add ->].
  simpl. by eexists.
Qed.

(** An exception of the transform path is one a collaborator raised. *)
Lemma integrate_Raised state v queue steps e :
  integrate state v queue steps = Throw (Raised e) →
  (∃ tr s, Transform_step tr s = inl e)
  ∨ (∃ tr l i r, rebaseSteps tr l i r = inl e)
  ∨ (∃ s d, Step_invert s d = inl e).
Proof.
  unfold integrate. intros Hthrow.
  apply bind_Throw_inv in Hthrow as [Hthrow|(tr & _ & Hthrow)].
  - destruct (length queue).
    + apply apply_steps_Raised in Hthrow as (tr & s & _ & Hs). left. eauto.
    + right; left. destruct (rebaseSteps _ _ _ _) as [e'|tr] eqn:Hrebase;
        simpl in Hthrow; [|done].
      injection Hthrow as ->. eauto.
  - apply bind_Throw_inv in Hthrow as [Hthrow|(add & _ & Hthrow)]; [|done].
    apply unconfirmedFrom_Raised in Hthrow as (i & s & _ & Hs).
    right; right. eauto.
Qed.

(** ** [receiveAction] after the scan *)

Lemma receiveAction_unfold state steps clientIDs ourID :
  let ours := prefix_length ourID clientIDs in
  let version' := version (state_collab state) + Z.of_nat (length steps) in
  let trimmed := drop ours (unconfirmed (state_collab state)) in
  receiveAction state steps clientIDs ourID
  = match drop ours steps with
    | [] => Ok (CollabConfirm {| version := version'; unconfirmed := trimmed |})
    | _ => integrate state version' trimmed (drop ours steps)
    end.
Proof.
  intros ours version' trimmed. unfold receiveAction.
  rewrite ours_prefix_eq. fold ours version' trimmed.
  replace (match ours with O => steps | S _ => drop ours steps end)
    with (drop ours steps) by (by destruct ours).
  by destruct (drop ours steps).
Qed.

Lemma receiveAction_confirm_path state steps clientIDs ourID :
  drop (ours_prefix clientIDs ourID) steps = [] →
  receiveAction state steps clientIDs ourID
  = Ok (CollabConfirm
          {| version := version (state_collab state) + Z.of_nat (length steps);
             unconfirmed := drop (ours_prefix clientIDs ourID)
                              (unconfirmed (state_collab state)) |}).
Proof.
  intros Hnil. rewrite receiveAction_unfold, <- ours_prefix_eq. by rewrite Hnil.
Qed.

Lemma receiveAction_transform_path state steps clientIDs ourID :
  drop (ours_prefix clientIDs ourID) steps ≠ [] →
  receiveAction state steps clientIDs ourID
  = integrate state (version (state_collab state) + Z.of_nat (length steps))
      (drop (ours_prefix clientIDs ourID) (unconfirmed (state_collab state)))
      (drop (ours_prefix clientIDs ourID) steps).
Proof.
  intros Hremote. rewrite receiveAction_unfold, <- ours_prefix_eq.
  by destruct (drop _ steps).
Qed.

End Facts.

(** * The claims *)

Section Claims.
Context `{C : Collaborators}.

(** C1. Confirm-prefix correctness. For a batch of as many steps as origin
    identifiers, whose identifiers are [k] copies of the local one followed
    by [m] foreign ones, and a pending queue of at least [k] entries: the
    scan finds [ours = k]; the trimming step splits the queue into its first
    [k] entries, which are dropped, and the rest, which is what the confirm
    action carries ([m = 0]) or what is handed to the transform path
    ([m > 0]); and the state carried by whatever action results has version
    [state.version + k + m]. *)
Theorem receiveAction_confirm_prefix (state : EditorState) (steps : list Step)
    (others : list Z) (ourID : Z) (k : nat) :
  (k ≤ length (unconfirmed (state_collab state)))%nat →
  Forall (λ id, id ≠ ourID) others →
  length steps = (k + length others)%nat →
  let clientIDs := replicate k ourID ++ others in
  let m := length others in
  let queue := unconfirmed (state_collab state) in
  let version' := version (state_collab state) + Z.of_nat k + Z.of_nat m in
  ours_prefix clientIDs ourID = k
  ∧ queue = take k queue ++ drop k queue
  ∧ length (take k queue) = k
  ∧ receiveAction state steps clientIDs ourID
    = match m with
      | O => Ok (CollabConfirm {| version := version'; unconfirmed := drop k queue |})
      | _ => integrate state version' (drop k queue) (drop k steps)
      end
  ∧ ∀ a, receiveAction state steps clientIDs ourID = Ok a →
      (∃ cs, action_collabState a = Some cs ∧ version cs = version')
      ∧ match a with
        | CollabConfirm cs => unconfirmed cs = drop k queue
        | TransformAction _ rebased _ _ _ => rebased = Some (length queue - k)%nat
        | OtherAction => False
        end.
Proof.
  intros Hk Hothers Hlen clientIDs m queue version'.
  assert (prefix_length ourID clientIDs = k) as Hours
    by (by apply prefix_length_replicate_app).
  assert (receiveAction state steps clientIDs ourID
    = match m with
      | O => Ok (CollabConfirm {| version := version'; unconfirmed := drop k queue |})
      | _ => integrate state version' (drop k queue) (drop k steps)
      end) as Hrun.
  { rewrite receiveAction_unfold. fold clientIDs. rewrite Hours.
    replace (version (state_collab state) + Z.of_nat (length steps))
      with version' by (unfold version', m; lia).
    fold queue. pose proof (length_drop steps k) as Hdrop.
    destruct (drop k steps) as [|s rest] eqn:Hrest; simpl in Hdrop.
    - by replace m with O by (unfold m; lia).
    - destruct m eqn:Hm; [unfold m in Hm; lia | done]. }
  split; [by rewrite ours_prefix_eq|].
  split; [by rewrite take_drop|].
  split; [by apply length_take_le|].
  split; [done|].
  intros a Ha. rewrite Hrun in Ha. destruct m.
  - injection Ha as <-. simpl. split; [by eexists | done].
  - apply integrate_Ok_inv in Ha as (tr & add & _ & _ & ->). simpl.
    split; [by eexists|]. by rewrite length_drop.
Qed.

(** C2. [receiveAction] returns a confirm action exactly when no steps
    remain after the self-echo prefix is dropped, which on a batch of as
    many steps as origin identifiers means that every step has the local
    identifier as its origin. The confirm action carries the new version
    and the trimmed queue and is returned without any call to a
    collaborator. Otherwise the call is the transform path: what it returns
    is a transform action, it returns one whenever the collaborators raise
    nothing, and nothing but their exceptions can come out of it. *)
Theorem receiveAction_confirm_iff (state : EditorState) (steps : list Step)
    (clientIDs : list Z) (ourID : Z) :
  let ours := ours_prefix clientIDs ourID in
  let version' := version (state_collab state) + Z.of_nat (length steps) in
  let trimmed := drop ours (unconfirmed (state_collab state)) in
  let remote := drop ours steps in
  let all_ours := Forall (λ id, id = ourID) clientIDs in
  (length steps = length clientIDs → (all_ours ↔ remote = []))
  ∧ ((∃ cs, receiveAction state steps clientIDs ourID = Ok (CollabConfirm cs))
     ↔ remote = [])
  ∧ (remote = [] →
     receiveAction state steps clientIDs ourID
     = Ok (CollabConfirm {| version := version'; unconfirmed := trimmed |}))
  ∧ (remote ≠ [] →
     receiveAction state steps clientIDs ourID
     = integrate state version' trimmed remote
     ∧ (∀ a, receiveAction state steps clientIDs ourID = Ok a →
          ∃ transform cs,
            a = TransformAction transform (Some (length trimmed)) (Some false)
                  (Some cs) (Some false))
     ∧ (never_raise C → ∃ a, receiveAction state steps clientIDs ourID = Ok a)
     ∧ (∀ x, receiveAction state steps clientIDs ourID = Throw x →
          ∃ e, x = Raised e)).
Proof.
  intros ours version' trimmed remote all_ours.
  split; [|split; [|split]].
  - intros Hlen. unfold all_ours, remote.
    rewrite <- prefix_length_all, <- ours_prefix_eq. fold ours.
    pose proof (prefix_length_le ourID clientIDs) as Hle.
    rewrite <- ours_prefix_eq in Hle. fold ours in Hle.
    pose proof (length_drop steps ours) as Hdrop. split.
    + intros Heq. apply length_zero_iff_nil. lia.
    + intros Hnil. rewrite Hnil in Hdrop. simpl in Hdrop. lia.
  - split.
    + intros [cs Hcs]. destruct (decide (remote = [])) as [|Hremote]; [done|].
      rewrite receiveAction_transform_path in Hcs by done.
      by apply integrate_Ok_inv in Hcs as (? & ? & _ & _ & ?).
    + intros Hnil. rewrite receiveAction_confirm_path by done. by eexists.
  - intros Hnil. by rewrite receiveAction_confirm_path.
  - intros Hremote. rewrite receiveAction_transform_path by done.
    split; [done|]. split; [|split].
    + intros a Ha. apply integrate_Ok_inv in Ha as (tr & add & _ & _ & ->).
      by eexists _, _.
    + apply integrate_total.
    + intros [k|e] Hx; [by apply integrate_no_TypeError in Hx | by exists e].
Qed.

(** C4. The empty batch is the identity on the session state:
    [receiveAction(state, [], [], id)] returns a confirm action carrying
    the version and the pending queue of [state]. *)
Theorem receiveAction_empty_batch (state : EditorState) (ourID : Z) :
  ∃ cs, receiveAction state [] [] ourID = Ok (CollabConfirm cs)
        ∧ version cs = version (state_collab state)
        ∧ unconfirmed cs = unconfirmed (state_collab state)
        ∧ cs = state_collab state.
Proof.
  eexists. split; [reflexivity|]. simpl.
  split; [lia|]. split; [done|].
  destruct (state_collab state). simpl. f_equal. lia.
Qed.

(** C3. When remote steps remain after trimming and [receiveAction]
    returns, it returns a transform action over the transform the
    collaborators produced, and the pending queue of the new session state
    is that transform's steps from index (entries left pending + remote
    steps left) to the end, each paired with the inverse that [invert]
    gives for it against the transform's document of the same index. *)
Theorem receiveAction_pending_queue (state : EditorState) (steps : list Step)
    (clientIDs : list Z) (ourID : Z) (a : Action) :
  let ours := ours_prefix clientIDs ourID in
  let trimmed := drop ours (unconfirmed (state_collab state)) in
  let remote := drop ours steps in
  let start := (length trimmed + length remote)%nat in
  remote ≠ [] →
  receiveAction state steps clientIDs ourID = Ok a →
  ∃ transform cs,
    a = TransformAction transform (Some (length trimmed)) (Some false)
          (Some cs) (Some false)
    ∧ resulting_transform state trimmed remote transform
    ∧ map step (unconfirmed cs) = drop start (Transform_steps transform)
    ∧ length (unconfirmed cs) = (length (Transform_steps transform) - start)%nat
    ∧ ∀ j e, unconfirmed cs !! j = Some e →
        Transform_steps transform !! (start + j)%nat = Some (step e)
        ∧ Step_invert (step e) (Transform_docs transform !! (start + j)%nat)
          = inr (inverted e).
Proof.
  intros ours trimmed remote start Hremote Ha.
  rewrite receiveAction_transform_path in Ha by done.
  apply integrate_Ok_inv in Ha as (tr & add & Htr & Hadd & ->).
  exists tr, {| version := version (state_collab state) + Z.of_nat (length steps);
                unconfirmed := add |}.
  split; [done|]. split; [done|]. simpl.
  split; [by apply entries_from_steps|]. apply Hadd.
Qed.

(** C5. [collab] called without a configured client identifier does not
    complete: the default is assigned to the [const] binding [clientID],
    which throws. This holds when the options are absent and when they are
    present without a [clientID], whatever the random draw. *)
Theorem collab_default_clientID_throws (random : Z) :
  collab None random = Throw (TypeError AssignmentToConstant)
  ∧ ∀ v, collab (Some {| opt_version := v; opt_clientID := None |}) random
         = Throw (TypeError AssignmentToConstant).
Proof. split; [reflexivity | intros v; reflexivity]. Qed.

(** C6. A transform action returned by [receiveAction] carries a new
    session state whose version is the old version plus the number of
    steps of the batch, a rebased count equal to the number of pending
    entries left after trimming (0 when none was left, in which case the
    transform is the remote steps applied directly), [interaction] false
    and [addToHistory] false. *)
Theorem receiveAction_transform_action (state : EditorState)
    (steps : list Step) (clientIDs : list Z) (ourID : Z)
    (transform : Transform) (rebased : option nat)
    (addToHistory : option bool) (newCollabState : option CollabState)
    (interaction : option bool) :
  receiveAction state steps clientIDs ourID
  = Ok (TransformAction transform rebased addToHistory newCollabState interaction) →
  let ours := ours_prefix clientIDs ourID in
  let trimmed := drop ours (unconfirmed (state_collab state)) in
  (∃ cs, newCollabState = Some cs
         ∧ version cs = version (state_collab state) + Z.of_nat (length steps))
  ∧ rebased = Some (length trimmed)
  ∧ (trimmed = [] →
     rebased = Some O
     ∧ apply_steps (state_tr state) (drop ours steps) = Ok transform)
  ∧ interaction = Some false
  ∧ addToHistory = Some false.
Proof.
  intros Ha ours trimmed.
  destruct (decide (drop ours steps = [])) as [Hnil|Hremote].
  { by rewrite receiveAction_confirm_path in Ha. }
  rewrite receiveAction_transform_path in Ha by done.
  apply integrate_Ok_inv in Ha as (tr & add & Htr & _ & [= -> -> -> -> ->]).
  split; [by eexists|]. split; [done|]. split; [|done].
  intros Hnil. unfold trimmed, ours in *. rewrite Hnil in Htr |- *. done.
Qed.

(** C7. A local edit is a transform action without [newCollabState].
    [applyAction] maps it to the session state with the same version whose
    pending queue is the old queue followed by one [{step, inverted}] entry
    per step of the action's transform, in the order of the steps, each
    inverse taken against the document preceding the step; the session
    state has no other component. It produces that state whenever the
    inversions raise nothing. *)
Theorem applyAction_local_edit (state : EditorState) (transform : Transform)
    (rebased : option nat) (addToHistory interaction : option bool) :
  let local_edit :=
    TransformAction transform rebased addToHistory None interaction in
  (∀ cs',
     applyAction state local_edit = Ok cs' ↔
     version cs' = version (state_collab state)
     ∧ ∃ add,
         unconfirmed cs' = unconfirmed (state_collab state) ++ add
         ∧ map step add = Transform_steps transform
         ∧ ∀ j e, add !! j = Some e →
             Transform_steps transform !! j = Some (step e)
             ∧ Step_invert (step e) (Transform_docs transform !! j)
               = inr (inverted e))
  ∧ (never_raise C → ∃ cs', applyAction state local_edit = Ok cs').
Proof.
  intros local_edit. unfold local_edit, applyAction. split.
  - intros cs'. rewrite bind_Ok_inv. split.
    + intros (add & Hadd & [= <-]). apply unconfirmedFrom_Ok in Hadd. simpl in *.
      split; [done|]. exists add. split; [done|].
      split; [by rewrite (entries_from_steps _ _ _ Hadd), drop_0|]. apply Hadd.
    + intros (Hv & add & Hq & Hsteps & Hadd). exists add. split.
      * apply unconfirmedFrom_Ok. simpl. split; [|done].
        by rewrite <- Hsteps, length_map, Nat.sub_0_r.
      * destruct cs'; simpl in *. by subst.
  - intros Hnever. destruct (unconfirmedFrom_total transform None Hnever) as [add ->].
    simpl. by eexists.
Qed.

(** C8. For the plugin of a session, [sendableSteps] returns null exactly
    when the pending queue is empty; otherwise it returns the payload with
    the version of the state, the pending steps in queue order without
    their inverses, and the client identifier of the session. *)
Theorem sendableSteps_payload (options : option Options) (random : Z)
    (plugin : Plugin) (state : EditorState) :
  collab options random = Ok plugin →
  let queue := unconfirmed (state_collab state) in
  (plugin_sendableSteps plugin state = None ↔ queue = [])
  ∧ (queue ≠ [] →
     plugin_sendableSteps plugin state
     = Some {| send_version := version (state_collab state);
               send_steps := map step queue;
               send_clientID := clientID plugin |})
  ∧ options ≫= opt_clientID = Some (clientID plugin).
Proof.
  intros Hplugin queue. unfold collab in Hplugin.
  destruct (options ≫= opt_clientID) as [id|]; [|done].
  injection Hplugin as <-. simpl. unfold sendableSteps. fold queue.
  by destruct queue.
Qed.

(** A call of the accessor on a store that holds the state: [null] and
    the same store when nothing is pending, otherwise two new objects, the
    array of the steps and the payload that refers to it, after the objects
    that were there. *)
Lemma sendableSteps_store_run (id : Z) (σ : store) (state : loc)
    (cs : CollabState) :
  holds_state σ state cs →
  sendableSteps_store id state σ
  = Ok (match unconfirmed cs with
        | [] => (None, σ)
        | _ => (Some (S (length σ)),
                σ ++ [ArrayObj (map step (unconfirmed cs));
                      PayloadObj (version cs) (length σ) id])
        end).
Proof.
  intros (c & u & Hstate & Hcollab & Hqueue).
  unfold sendableSteps_store, heap_bind, get_collab, get_unconfirmed,
    get_version, rope_length, rope_map_step, deref, heap_bind, heap_ret, alloc.
  repeat progress (rewrite ?Hstate, ?Hcollab, ?Hqueue; cbn beta iota).
  destruct (unconfirmed cs) as [|e queue]; [done|]. cbn [length].
  repeat progress (rewrite ?Hstate, ?Hcollab, ?Hqueue; cbn beta iota).
  rewrite length_app, <- app_assoc. cbn [length app].
  by rewrite Nat.add_1_r.
Qed.

Lemma preserved_app (σ ext : store) : preserved σ (σ ++ ext).
Proof. unfold store in *. intros l o Hl. by apply lookup_app_l_Some. Qed.

Lemma holds_state_preserved (σ σ' : store) (state : loc) (cs : CollabState) :
  preserved σ σ' → holds_state σ state cs → holds_state σ' state cs.
Proof.
  intros Hpres (c & u & Hstate & Hcollab & Hqueue).
  exists c, u. split; [|split]; by apply Hpres.
Qed.

(** What the two new objects hold, seen from any store that keeps them. *)
Lemma payload_view_new (id : Z) (σ σ' : store) (cs : CollabState) :
  preserved (σ ++ [ArrayObj (map step (unconfirmed cs));
                   PayloadObj (version cs) (length σ) id]) σ' →
  payload_view σ' (Some (S (length σ)))
  = Some (Some {| send_version := version cs;
                  send_steps := map step (unconfirmed cs);
                  send_clientID := id |}).
Proof.
  intros Hpres. unfold payload_view, preserved, store in *.
  rewrite (Hpres (S (length σ)) (PayloadObj (version cs) (length σ) id)).
  - rewrite (Hpres (length σ) (ArrayObj (map step (unconfirmed cs)))); [done|].
    rewrite lookup_app_r by lia. by rewrite Nat.sub_diag.
  - rewrite lookup_app_r by lia.
    by replace (S (length σ) - length σ)%nat with 1%nat by lia.
Qed.

(** C9. [sendableSteps] only reads. Run on a store that holds the editor
    state, a call returns, changes no object that was there (it only adds
    the array and the object it returns), and leaves the state holding the
    same session state; so a second call right after it returns as well,
    and the two results hold the same: [null] both times and the store
    untouched when nothing is pending, otherwise two distinct objects with
    equal version, equal steps and the client identifier of the plugin.
    What they hold is what [plugin.sendableSteps] gives for the session
    state, and the second call leaves the first result as it was. *)
Theorem sendableSteps_read_only (options : option Options) (random : Z)
    (plugin : Plugin) (σ : store) (state : loc) (cs : CollabState)
    (transform : Transform) :
  collab options random = Ok plugin →
  holds_state σ state cs →
  ∃ r1 σ1 r2 σ2,
    sendableSteps_store (clientID plugin) state σ = Ok (r1, σ1)
    ∧ sendableSteps_store (clientID plugin) state σ1 = Ok (r2, σ2)
    ∧ preserved σ σ1 ∧ preserved σ1 σ2
    ∧ holds_state σ1 state cs ∧ holds_state σ2 state cs
    ∧ payload_view σ2 r2 = payload_view σ1 r1
    ∧ payload_view σ2 r1 = payload_view σ1 r1
    ∧ payload_view σ1 r1
      = Some (plugin_sendableSteps plugin
                {| state_collab := cs; state_tr := transform |})
    ∧ (unconfirmed cs = [] → r1 = None ∧ r2 = None ∧ σ1 = σ ∧ σ2 = σ)
    ∧ (unconfirmed cs ≠ [] → ∃ l1 l2, r1 = Some l1 ∧ r2 = Some l2 ∧ l1 ≠ l2).
Proof.
  intros Hplugin Hstate. unfold collab in Hplugin.
  destruct (options ≫= opt_clientID) as [id|]; [|done].
  injection Hplugin as <-. cbn [clientID plugin_sendableSteps].
  destruct (unconfirmed cs) as [|e queue] eqn:Hqueue.
  - exists None, σ, None, σ.
    rewrite !(sendableSteps_store_run id σ state cs Hstate), Hqueue.
    unfold sendableSteps. cbn [state_collab]. rewrite Hqueue.
    repeat split; try done; by intros l o Hl.
  - set (σ1 := σ ++ [ArrayObj (map step (unconfirmed cs));
                     PayloadObj (version cs) (length σ) id]).
    set (σ2 := σ1 ++ [ArrayObj (map step (unconfirmed cs));
                      PayloadObj (version cs) (length σ1) id]).
    assert (preserved σ σ1) as H01 by apply preserved_app.
    assert (preserved σ1 σ2) as H12 by apply preserved_app.
    assert (holds_state σ1 state cs) as Hstate1
      by (by apply (holds_state_preserved σ)).
    exists (Some (S (length σ))), σ1, (Some (S (length σ1))), σ2.
    rewrite (sendableSteps_store_run id σ state cs Hstate).
    rewrite (sendableSteps_store_run id σ1 state cs Hstate1).
    rewrite Hqueue. cbn beta iota. rewrite <- Hqueue. fold σ1 σ2.
    rewrite (payload_view_new id σ1 σ2 cs) by (by intros l o Hl).
    rewrite (payload_view_new id σ σ2 cs) by apply H12.
    rewrite (payload_view_new id σ σ1 cs) by (by intros l o Hl).
    assert (sendableSteps id {| state_collab := cs; state_tr := transform |}
            = Some {| send_version := version cs;
                      send_steps := map step (unconfirmed cs);
                      send_clientID := id |}) as ->
      by (unfold sendableSteps; cbn [state_collab]; by rewrite Hqueue).
    do 4 (split; [done|]). split; [done|].
    split; [by apply (holds_state_preserved σ1)|].
    do 3 (split; [done|]). split; [intros Hnil; congruence|].
    intros _. exists (S (length σ)), (S (length σ1)).
    do 2 (split; [done|]). unfold σ1. rewrite length_app. simpl. lia.
Qed.

(** C10. [receiveAction] validates nothing and raises nothing of its own,
    on any batch: no [TypeError] comes out of it, an exception that comes
    out of it was raised by a collaborator on the transform path, and it
    returns an action whenever the collaborators raise nothing. The scan
    runs over [clientIDs] alone and finds its longest prefix of local
    identifiers; every action returned carries the version advanced by
    [steps.length]; a prefix that covers the steps gives the confirm
    action even if identifiers are left over; and a prefix at least as
    long as the pending queue leaves the empty queue. *)
Theorem receiveAction_total (state : EditorState) (steps : list Step)
    (clientIDs : list Z) (ourID : Z) :
  let ours := ours_prefix clientIDs ourID in
  let queue := unconfirmed (state_collab state) in
  let version' := version (state_collab state) + Z.of_nat (length steps) in
  (∀ k, receiveAction state steps clientIDs ourID ≠ Throw (TypeError k))
  ∧ (∀ e, receiveAction state steps clientIDs ourID = Throw (Raised e) →
       drop ours steps ≠ []
       ∧ ((∃ tr s, Transform_step tr s = inl e)
          ∨ (∃ tr l i r, rebaseSteps tr l i r = inl e)
          ∨ (∃ s d, Step_invert s d = inl e)))
  ∧ (never_raise C → ∃ a, receiveAction state steps clientIDs ourID = Ok a)
  ∧ ((ours ≤ length clientIDs)%nat
     ∧ (∀ i, (i < ours)%nat → clientIDs !! i = Some ourID)
     ∧ clientIDs !! ours ≠ Some ourID)
  ∧ (∀ a, receiveAction state steps clientIDs ourID = Ok a →
       ∃ cs, action_collabState a = Some cs ∧ version cs = version')
  ∧ ((length steps ≤ ours)%nat →
     receiveAction state steps clientIDs ourID
     = Ok (CollabConfirm {| version := version'; unconfirmed := drop ours queue |}))
  ∧ ((length queue ≤ ours)%nat →
     drop ours queue = []
     ∧ ∀ a, receiveAction state steps clientIDs ourID = Ok a →
         match a with
         | CollabConfirm cs => unconfirmed cs = []
         | TransformAction _ rebased _ _ _ => rebased = Some O
         | OtherAction => False
         end).
Proof.
  intros ours queue version'.
  pose proof (receiveAction_unfold state steps clientIDs ourID) as Hrun.
  simpl in Hrun. rewrite <- ours_prefix_eq in Hrun.
  fold ours queue version' in Hrun.
  split; [|split; [|split; [|split; [|split; [|split]]]]].
  - intros k. rewrite Hrun. destruct (drop ours steps); [done|].
    apply integrate_no_TypeError.
  - intros e. rewrite Hrun. destruct (drop ours steps) eqn:Hrem; [done|].
    intros He. split; [done|]. by eapply integrate_Raised.
  - intros Hnever. rewrite Hrun. destruct (drop ours steps); [by eexists|].
    by apply integrate_total.
  - unfold ours. rewrite ours_prefix_eq. split; [apply prefix_length_le|].
    split; [apply prefix_length_lookup | apply prefix_length_stop].
  - intros a. rewrite Hrun. destruct (drop ours steps).
    + intros [= <-]. by eexists.
    + intros Ha. apply integrate_Ok_inv in Ha as (tr & add & _ & _ & ->).
      by eexists.
  - intros Hle. by rewrite Hrun, drop_ge.
  - intros Hle. split; [by apply drop_ge|].
    intros a. rewrite Hrun, (drop_ge queue) by done.
    destruct (drop ours steps).
    + by intros [= <-].
    + intros Ha. by apply integrate_Ok_inv in Ha as (tr & add & _ & _ & ->).
Qed.

End Claims.

(** * Concrete runs *)

(** The counter model raises nothing. *)
Lemma counter_never_raises : never_raise Counter.model.
Proof. repeat split; intros; by eexists. Qed.

(** Scenario A of the specification, pure echo: the pending step comes
    back alone and is confirmed. *)
Example scenario_pure_echo :
  receiveAction
    (@Build_EditorState Counter.model
       (@Build_CollabState Counter.model 5 [counter_entry 3 (-3)])
       (Counter.fresh 3))
    [3] [7] 7
  = Ok (CollabConfirm (@Build_CollabState Counter.model 6 [])).
Proof. reflexivity. Qed.

(** Scenario B, foreign step with nothing pending: applied directly. *)
Example scenario_foreign_only :
  receiveAction counter_synced [10] [9] 7
  = Ok (@TransformAction Counter.model
          {| Counter.doc := 10; Counter.steps := [10]; Counter.docs := [0] |}
          (Some O) (Some false)
          (Some (@Build_CollabState Counter.model 6 [])) (Some false)).
Proof. reflexivity. Qed.

(** Scenario C, a foreign step while one step is pending: rebased. *)
Example scenario_rebase :
  receiveAction
    (@Build_EditorState Counter.model
       (@Build_CollabState Counter.model 3 [counter_entry 3 (-3)])
       (Counter.fresh 3))
    [10] [9] 7
  = Ok (@TransformAction Counter.model
          {| Counter.doc := 13; Counter.steps := [-3; 10; 3];
             Counter.docs := [3; 0; 10] |}
          (Some 1%nat) (Some false)
          (Some (@Build_CollabState Counter.model 4 [counter_entry 3 (-3)]))
          (Some false)).
Proof. reflexivity. Qed.

(** A confirmation needs no collaborator: it is returned even when every
    collaborator call would raise. *)
Example confirm_calls_no_collaborator :
  receiveAction refusing_session [3] [7] 7
  = Ok (CollabConfirm (@Build_CollabState Refusing.model 6 [])).
Proof. reflexivity. Qed.

(** What a collaborator raises comes out of [receiveAction] unchanged. *)
Example collaborator_exception_propagates :
  receiveAction refusing_session [3; 1] [7; 8] 7 = Throw (Raised tt).
Proof. reflexivity. Qed.

(** With a configured identifier [collab] returns the plugin of the
    session: the assignment of the default is not reached. *)
Example collab_configured :
  ∃ plugin,
    collab (C:=Counter.model)
      (Some {| opt_version := Some 3; opt_clientID := Some 7 |}) 12345
    = Ok plugin
    ∧ clientID plugin = 7
    ∧ init plugin () = @Build_CollabState Counter.model 3 [].
Proof. eexists. split; [reflexivity|]. split; reflexivity. Qed.

(** C1 at [k = 1], [m = 1]: the echo of the first pending step followed by
    one foreign step. *)
Lemma receiveAction_confirm_prefix_witness :
  (1 ≤ length (unconfirmed (state_collab counter_session)))%nat
  ∧ Forall (λ id, id ≠ 7) [9]
  ∧ length ([3; 10] : list Z) = (1 + length [9])%nat
  ∧ ours_prefix (replicate 1 7 ++ [9]) 7 = 1%nat
  ∧ ∃ a cs, receiveAction counter_session [3; 10] [7; 9] 7 = Ok a
            ∧ action_collabState a = Some cs
            ∧ version cs = 5 + 1 + 1.
Proof.
  assert (H1 : (1 ≤ length (unconfirmed (state_collab counter_session)))%nat)
    by (simpl; lia).
  assert (H2 : Forall (λ id, id ≠ 7) [9]) by (repeat constructor; lia).
  assert (H3 : length ([3; 10] : list Z) = (1 + length [9])%nat) by reflexivity.
  destruct (receiveAction_confirm_prefix counter_session [3; 10] [9] 7 1 H1 H2 H3)
    as (Hours & _ & _ & _ & Hversion).
  do 4 (split; [assumption|]).
  eexists. destruct (Hversion _ eq_refl) as [(cs & Hcs & Hv) _].
  exists cs. split; [reflexivity|]. split; assumption.
Defined.

(** C2 on a pure echo of both pending steps. *)
Lemma receiveAction_confirm_iff_witness :
  length ([3; 4] : list Z) = length [7; 7]
  ∧ Forall (λ id, id = 7) [7; 7]
  ∧ receiveAction counter_session [3; 4] [7; 7] 7
    = Ok (CollabConfirm (@Build_CollabState Counter.model 7 [])).
Proof.
  destruct (receiveAction_confirm_iff counter_session [3; 4] [7; 7] 7)
    as (Hall & _ & Hconfirm & _).
  split; [reflexivity|]. split.
  - apply (Hall eq_refl). reflexivity.
  - exact (Hconfirm eq_refl).
Defined.

(** C3 on the echo of one pending step followed by a foreign step: the
    second pending step is rebased over the foreign one. *)
Lemma receiveAction_pending_queue_witness :
  drop (ours_prefix [7; 9] 7) ([3; 10] : list Z) ≠ []
  ∧ ∃ transform cs,
      receiveAction counter_session [3; 10] [7; 9] 7
      = Ok (TransformAction transform (Some 1%nat) (Some false) (Some cs)
              (Some false))
      ∧ map step (unconfirmed cs) = drop 2 (Transform_steps transform)
      ∧ unconfirmed cs = [counter_entry 4 (-4)].
Proof.
  assert (Hremote : drop (ours_prefix [7; 9] 7) ([3; 10] : list Z) ≠ [])
    by (vm_compute; discriminate).
  split; [assumption|].
  destruct (receiveAction_pending_queue counter_session [3; 10] [7; 9] 7 _
              Hremote eq_refl)
    as (transform & cs & Ha & _ & Hsteps & _ & _).
  exists transform, cs. injection Ha as <- <-.
  split; [reflexivity|]. split; [exact Hsteps | reflexivity].
Defined.

(** C6 on the same batch. *)
Lemma receiveAction_transform_action_witness :
  ∃ transform rebased addToHistory cs interaction,
    receiveAction counter_session [3; 10] [7; 9] 7
    = Ok (TransformAction transform rebased addToHistory (Some cs) interaction)
    ∧ version cs = 5 + 2
    ∧ rebased = Some 1%nat
    ∧ interaction = Some false
    ∧ addToHistory = Some false.
Proof.
  do 5 eexists. split; [reflexivity|].
  destruct (receiveAction_transform_action counter_session [3; 10] [7; 9] 7
              _ _ _ _ _ eq_refl)
    as ((cs & Hcs & Hv) & Hrebased & _ & Hinteraction & Hhistory).
  injection Hcs as <-.
  split; [exact Hv|]. split; [exact Hrebased|]. split; assumption.
Defined.

(** C7 on a local edit of two steps, [+5] then [+6], made on the document
    [7]. *)
Lemma applyAction_local_edit_witness :
  ∃ cs',
    applyAction counter_session
      (@TransformAction Counter.model
         (Counter.do_step (Counter.do_step (Counter.fresh 7) 5) 6)
         None None None None)
    = Ok cs'
    ∧ version cs' = 5
    ∧ unconfirmed cs'
      = [counter_entry 3 (-3); counter_entry 4 (-4);
         counter_entry 5 (-5); counter_entry 6 (-6)].
Proof.
  eexists. split; [reflexivity|].
  destruct (applyAction_local_edit (C:=Counter.model) counter_session
              (Counter.do_step (Counter.do_step (Counter.fresh 7) 5) 6)
              None None None) as [Hiff _].
  destruct (proj1 (Hiff _) eq_refl) as (Hv & _).
  split; [exact Hv | reflexivity].
Defined.

(** C8 on the plugin of client 7. *)
Lemma sendableSteps_payload_witness :
  ∃ plugin,
    collab (C:=Counter.model) (Some {| opt_version := Some 3; opt_clientID := Some 7 |}) 12345
    = Ok plugin
    ∧ plugin_sendableSteps plugin counter_synced = None
    ∧ plugin_sendableSteps plugin counter_session
      = Some (@Build_Sendable Counter.model 5 [3; 4] 7).
Proof.
  eexists. split; [reflexivity|].
  destruct (sendableSteps_payload (C:=Counter.model)
              (Some {| opt_version := Some 3; opt_clientID := Some 7 |}) 12345
              _ counter_synced eq_refl) as (Hnone & _ & _).
  destruct (sendableSteps_payload (C:=Counter.model)
              (Some {| opt_version := Some 3; opt_clientID := Some 7 |}) 12345
              _ counter_session eq_refl) as (_ & Hsome & _).
  split; [by apply Hnone | by apply Hsome].
Defined.

(** C9 on the store of the counter session, for the plugin of client 7. *)
Lemma sendableSteps_read_only_witness :
  ∃ plugin,
    collab (C:=Counter.model)
      (Some {| opt_version := None; opt_clientID := Some 7 |}) 12345 = Ok plugin
    ∧ holds_state counter_store 0 (state_collab counter_session)
    ∧ ∃ r1 σ1 r2 σ2,
        sendableSteps_store 7 0%nat counter_store = Ok (r1, σ1)
        ∧ sendableSteps_store 7 0%nat σ1 = Ok (r2, σ2)
        ∧ payload_view σ2 r2 = payload_view σ1 r1
        ∧ payload_view σ1 r1
          = Some (Some (@Build_Sendable Counter.model 5 [3; 4] 7)).
Proof.
  eexists. split; [reflexivity|].
  assert (Hstate : holds_state counter_store 0 (state_collab counter_session)).
  { exists 1%nat, 2%nat. repeat split; reflexivity. }
  split; [exact Hstate|].
  destruct (sendableSteps_read_only (C:=Counter.model)
              (Some {| opt_version := None; opt_clientID := Some 7 |}) 12345
              _ counter_store 0%nat (state_collab counter_session)
              (Counter.fresh 7) eq_refl Hstate)
    as (r1 & σ1 & r2 & σ2 & Hrun1 & Hrun2 & _ & _ & _ & _ & Hsame & _ & Hview & _).
  exists r1, σ1, r2, σ2.
  split; [exact Hrun1|]. split; [exact Hrun2|]. split; [exact Hsame | exact Hview].
Defined.

(** The store tells a reader from a writer: had the accessor advanced the
    version before reading, the call after it would return another
    payload. *)
Example a_writer_is_seen :
  let advance : Heap (C:=Counter.model) unit :=
    heap_bind (get_collab 0%nat) (fun c =>
    heap_bind (get_version c) (fun v =>
    heap_bind (get_unconfirmed c) (fun u =>
    overwrite c (@CollabStateObj Counter.model (v + 1) u)))) in
  let writer := heap_bind advance (fun _ => sendableSteps_store 7 0%nat) in
  ∃ r1 σ1 r2 σ2,
    writer counter_store = Ok (r1, σ1)
    ∧ writer σ1 = Ok (r2, σ2)
    ∧ payload_view σ1 r1 ≠ payload_view σ2 r2.
Proof. do 4 eexists. split; [reflexivity|]. split; [reflexivity|]. discriminate. Qed.

(** C10 on a batch of three steps with four identifiers, all local, and
    two pending entries: the scan runs past the steps and past the queue. *)
Lemma receiveAction_total_witness :
  (length ([3; 4; 5]%Z : list Z) ≤ ours_prefix [7; 7; 7; 7]%Z 7%Z)%nat
  ∧ receiveAction counter_session [3; 4; 5] [7; 7; 7; 7] 7
    = Ok (CollabConfirm (@Build_CollabState Counter.model 8 [])).
Proof.
  assert (H : (length ([3; 4; 5]%Z : list Z) ≤ ours_prefix [7; 7; 7; 7]%Z 7%Z)%nat)
    by (vm_compute; lia).
  split; [exact H|].
  destruct (receiveAction_total counter_session [3; 4; 5] [7; 7; 7; 7] 7)
    as (_ & _ & _ & _ & _ & Hconfirm & _).
  exact (Hconfirm H).
Defined.

(** * The session as a whole *)

Section Session.
Context `{C : Collaborators}.

(** A batch in which every origin is ours, as long as its steps. *)
Lemma receiveAction_all_ours (state : EditorState) (steps : list Step) (ourID : Z) :
  receiveAction state steps (replicate (length steps) ourID) ourID
  = Ok (CollabConfirm
          {| version := version (state_collab state) + Z.of_nat (length steps);
             unconfirmed := drop (length steps) (unconfirmed (state_collab state)) |}).
Proof.
  assert (ours_prefix (replicate (length steps) ourID) ourID = length steps) as Hours.
  { rewrite ours_prefix_eq.
    rewrite <- (app_nil_r (replicate _ _)).
    by apply prefix_length_replicate_app. }
  rewrite receiveAction_confirm_path; rewrite Hours; [done|].
  by apply drop_all.
Qed.

(** Under a [transform.step] that appends the step it takes, the direct
    application leaves the steps of the batch after those already there. *)
Lemma apply_steps_appends (transform transform' : Transform) (steps : list Step) :
  (∀ tr s tr', Transform_step tr s = inr tr' →
     Transform_steps tr' = Transform_steps tr ++ [s]) →
  apply_steps transform steps = Ok transform' →
  Transform_steps transform' = Transform_steps transform ++ steps.
Proof.
  intros Hstep. rewrite apply_steps_foldM.
  assert (∀ n i tr,
    (i + n = length steps)%nat →
    foldM (fun i transform =>
             s ← defined (steps !! i); call (Transform_step transform s))
      (seq i n) tr = Ok transform' →
    Transform_steps transform' = Transform_steps tr ++ drop i steps) as Hgen.
  { induction n as [|n IH]; intros i tr Hin; simpl.
    - intros [= ->]. rewrite drop_ge by lia. by rewrite app_nil_r.
    - destruct (lookup_lt_is_Some_2 steps i) as [s Hs]; [lia|].
      rewrite Hs. simpl.
      destruct (Transform_step tr s) as [e|tr1] eqn:Htr1; simpl; [done|].
      intros Hrest. rewrite (IH (S i) tr1) by (done || lia).
      rewrite (Hstep _ _ _ Htr1), (drop_S _ _ _ Hs). by rewrite <- app_assoc. }
  intros Hrun. by rewrite (Hgen (length steps) O transform).
Qed.

(** X15. The state field takes over the session state that an action of
    [receiveAction] carries: applied to any editor state, the action gives
    that state, whose version is the version [receiveAction] started from
    plus the number of steps of the batch. *)
Theorem applyAction_after_receiveAction (state state' : EditorState)
    (steps : list Step) (clientIDs : list Z) (ourID : Z) (a : Action) :
  receiveAction state steps clientIDs ourID = Ok a →
  ∃ cs, applyAction state' a = Ok cs
        ∧ action_collabState a = Some cs
        ∧ version cs = version (state_collab state) + Z.of_nat (length steps)
        ∧ (drop (ours_prefix clientIDs ourID) steps = [] →
           unconfirmed cs
           = drop (ours_prefix clientIDs ourID) (unconfirmed (state_collab state))).
Proof.
  intros Ha.
  destruct (decide (drop (ours_prefix clientIDs ourID) steps = [])) as [Hnil|Hremote].
  - rewrite receiveAction_confirm_path in Ha by done. injection Ha as <-.
    by eexists.
  - rewrite receiveAction_transform_path in Ha by done.
    apply integrate_Ok_inv in Ha as (tr & add & _ & _ & ->).
    by eexists.
Qed.

(** X16. After a local edit the plugin offers the steps that were pending
    followed by the steps of the edit, under the unchanged version; it
    offers nothing only when both are empty. *)
Theorem sendableSteps_after_local_edit (options : option Options) (random : Z)
    (plugin : Plugin) (state : EditorState) (transform transform' : Transform)
    (rebased : option nat) (addToHistory interaction : option bool)
    (cs' : CollabState) :
  collab options random = Ok plugin →
  plugin_applyAction plugin state
    (TransformAction transform rebased addToHistory None interaction) = Ok cs' →
  plugin_sendableSteps plugin {| state_collab := cs'; state_tr := transform' |}
  = match map step (unconfirmed (state_collab state)) ++ Transform_steps transform with
    | [] => None
    | steps => Some {| send_version := version (state_collab state);
                       send_steps := steps;
                       send_clientID := clientID plugin |}
    end.
Proof.
  intros Hplugin Hedit. unfold collab in Hplugin.
  destruct (options ≫= opt_clientID) as [id|]; [|done].
  injection Hplugin as <-. simpl in *.
  unfold applyAction in Hedit.
  apply bind_Ok_inv in Hedit as (add & Hadd & [= <-]).
  apply unconfirmedFrom_Ok, entries_from_steps in Hadd. simpl in Hadd.
  rewrite drop_0 in Hadd. unfold sendableSteps. simpl.
  rewrite <- Hadd, <- map_app.
  by destruct (unconfirmed (state_collab state) ++ add).
Qed.

(** X17. The round trip of a submission: when the authority sends back exactly
    the steps the plugin offered, all with the plugin's identifier, the
    plugin confirms them without touching the document, the version
    advances by their number, the pending queue is empty, and the plugin
    then has nothing to send. *)
Theorem echo_of_sent_steps (options : option Options) (random : Z)
    (plugin : Plugin) (state : EditorState) (payload : Sendable)
    (transform' : Transform) :
  collab options random = Ok plugin →
  plugin_sendableSteps plugin state = Some payload →
  let n := length (send_steps payload) in
  let confirmed :=
    {| version := send_version payload + Z.of_nat n; unconfirmed := [] |} in
  plugin_receiveAction plugin state (send_steps payload)
    (replicate n (send_clientID payload))
  = Ok (CollabConfirm confirmed)
  ∧ plugin_sendableSteps plugin
      {| state_collab := confirmed; state_tr := transform' |} = None.
Proof.
  intros Hplugin Hsend n confirmed. unfold collab in Hplugin.
  destruct (options ≫= opt_clientID) as [id|]; [|done].
  injection Hplugin as <-. simpl in *. unfold sendableSteps in Hsend.
  destruct (length (unconfirmed (state_collab state))); [done|].
  injection Hsend as <-. subst n confirmed. simpl. split; [|reflexivity].
  rewrite receiveAction_all_ours, length_map. by rewrite drop_all.
Qed.

(** X18. The self-echo scan looks at a prefix only: when the first origin is
    foreign, nothing is confirmed, however many of the later origins are
    ours. The whole pending queue and the whole batch go to the transform
    path, and a returned action reports the whole queue as rebased. *)
Theorem foreign_first_confirms_nothing (state : EditorState)
    (steps : list Step) (other : Z) (rest : list Z) (ourID : Z) :
  other ≠ ourID →
  steps ≠ [] →
  ours_prefix (other :: rest) ourID = O
  ∧ receiveAction state steps (other :: rest) ourID
    = integrate state
        (version (state_collab state) + Z.of_nat (length steps))
        (unconfirmed (state_collab state)) steps
  ∧ ∀ a, receiveAction state steps (other :: rest) ourID = Ok a →
      ∃ transform cs,
        a = TransformAction transform
              (Some (length (unconfirmed (state_collab state))))
              (Some false) (Some cs) (Some false).
Proof.
  intros Hother Hsteps.
  assert (ours_prefix (other :: rest) ourID = O) as Hours.
  { rewrite ours_prefix_eq. simpl. by rewrite bool_decide_eq_false_2. }
  assert (receiveAction state steps (other :: rest) ourID
    = integrate state
        (version (state_collab state) + Z.of_nat (length steps))
        (unconfirmed (state_collab state)) steps) as Hrun.
  { rewrite receiveAction_transform_path; rewrite Hours; by rewrite ?drop_0. }
  split; [done|]. split; [done|].
  intros a Ha. rewrite Hrun in Ha.
  apply integrate_Ok_inv in Ha as (tr & add & _ & _ & ->). by eexists _, _.
Qed.

(** X19. [unconfirmedFrom] at its bounds: a start at or past the end gives the
    empty list without inverting anything; the default start is 0; and a
    later start gives the corresponding suffix of the full list. *)
Theorem unconfirmedFrom_suffix (transform : Transform) (start : nat) :
  ((length (Transform_steps transform) ≤ start)%nat →
   unconfirmedFrom transform (Some start) = Ok [])
  ∧ unconfirmedFrom transform None = unconfirmedFrom transform (Some O)
  ∧ ∀ all, unconfirmedFrom transform None = Ok all →
      unconfirmedFrom transform (Some start) = Ok (drop start all).
Proof.
  split; [|split].
  - intros Hstart. apply unconfirmedFrom_Ok. split; simpl; [lia | done].
  - done.
  - intros all Hall. apply unconfirmedFrom_Ok in Hall as [Hlen Hall].
    apply unconfirmedFrom_Ok. simpl in *. split.
    + rewrite length_drop. lia.
    + intros j e He. rewrite lookup_drop in He. by apply Hall.
Qed.

(** X20. A session with nothing pending stays so on a batch from elsewhere:
    with a fresh transform and a [transform.step] that appends the step it
    takes, whatever action [receiveAction] returns carries an empty pending
    queue, and a transform action holds exactly the steps left of the
    batch. *)
Theorem synced_stays_synced (state : EditorState) (steps : list Step)
    (clientIDs : list Z) (ourID : Z) (a : Action) :
  (∀ tr s tr', Transform_step tr s = inr tr' →
     Transform_steps tr' = Transform_steps tr ++ [s]) →
  Transform_steps (state_tr state) = [] →
  unconfirmed (state_collab state) = [] →
  receiveAction state steps clientIDs ourID = Ok a →
  (∃ cs, action_collabState a = Some cs ∧ unconfirmed cs = [])
  ∧ match a with
    | TransformAction transform rebased _ _ _ =>
        Transform_steps transform = drop (ours_prefix clientIDs ourID) steps
        ∧ rebased = Some O
    | _ => True
    end.
Proof.
  intros Hstep Hfresh Hsynced Ha.
  destruct (decide (drop (ours_prefix clientIDs ourID) steps = [])) as [Hnil|Hremote].
  - rewrite receiveAction_confirm_path in Ha by done. injection Ha as <-.
    simpl. rewrite Hsynced, drop_nil. split; [by eexists | done].
  - rewrite receiveAction_transform_path in Ha by done.
    rewrite Hsynced, drop_nil in Ha.
    apply integrate_Ok_inv in Ha as (tr & add & Htr & [Hlen _] & ->).
    simpl in Htr. apply (apply_steps_appends _ _ _ Hstep) in Htr.
    rewrite Hfresh in Htr. simpl in Htr, Hlen. rewrite Htr in Hlen.
    assert (add = []) as -> by (apply length_zero_iff_nil; lia).
    simpl. split; [by eexists | done].
Qed.

(** X21. Confirmations compose: two batches of echoes received one after the
    other leave the session state that the two received as one batch
    leave. *)
Theorem echoes_compose (state : EditorState) (steps1 steps2 : list Step)
    (ourID : Z) (transform' : Transform) :
  let echo (steps : list Step) := replicate (length steps) ourID in
  ∃ cs1 cs12,
    receiveAction state steps1 (echo steps1) ourID = Ok (CollabConfirm cs1)
    ∧ receiveAction {| state_collab := cs1; state_tr := transform' |}
        steps2 (echo steps2) ourID = Ok (CollabConfirm cs12)
    ∧ receiveAction state (steps1 ++ steps2) (echo (steps1 ++ steps2)) ourID
      = Ok (CollabConfirm cs12).
Proof.
  intros echo. unfold echo. eexists _, _.
  split; [apply receiveAction_all_ours|].
  rewrite !receiveAction_all_ours. simpl. split; [done|].
  rewrite length_app, drop_drop. do 3 f_equal. lia.
Qed.

(** X22. A new session: the state field starts with an empty pending queue at
    the configured version, 0 when none is configured, and the plugin has
    nothing to send. *)
Theorem fresh_session (options : option Options) (random : Z)
    (plugin : Plugin) (transform : Transform) :
  collab options random = Ok plugin →
  unconfirmed (init plugin ()) = []
  ∧ (∀ v, options ≫= opt_version = Some v → version (init plugin ()) = v)
  ∧ (options ≫= opt_version = None → version (init plugin ()) = 0)
  ∧ plugin_sendableSteps plugin
      {| state_collab := init plugin (); state_tr := transform |} = None.
Proof.
  intros Hplugin. unfold collab in Hplugin.
  destruct (options ≫= opt_clientID) as [id|]; [|done].
  injection Hplugin as <-. simpl. split; [done|].
  split; [by intros v ->|]. split; [by intros ->| done].
Qed.

End Session.

(** The counter model's [transform.step] appends the step it takes. *)
Lemma counter_step_appends (tr : Counter.transform) (s : Z) (tr' : Counter.transform) :
  Transform_step (Collaborators:=Counter.model) tr s = inr tr' →
  Counter.steps tr' = Counter.steps tr ++ [s].
Proof. by intros [= <-]. Qed.

Lemma applyAction_after_receiveAction_witness :
  ∃ a cs,
    receiveAction counter_session [3; 10] [7; 9] 7 = Ok a
    ∧ applyAction counter_synced a = Ok cs
    ∧ version cs = 5 + 2.
Proof.
  eexists.
  destruct (applyAction_after_receiveAction counter_session counter_synced
              [3; 10] [7; 9] 7 _ eq_refl) as (cs & Happly & _ & Hv & _).
  exists cs. split; [reflexivity|]. split; [exact Happly | exact Hv].
Defined.

Lemma sendableSteps_after_local_edit_witness :
  ∃ plugin cs',
    collab (C:=Counter.model)
      (Some {| opt_version := None; opt_clientID := Some 7 |}) 12345 = Ok plugin
    ∧ plugin_applyAction plugin counter_session
        (@TransformAction Counter.model
           (Counter.do_step (Counter.fresh 7) 5) None None None None) = Ok cs'
    ∧ plugin_sendableSteps plugin
        (@Build_EditorState Counter.model cs' (Counter.fresh 12))
      = Some (@Build_Sendable Counter.model 5 [3; 4; 5] 7).
Proof.
  do 2 eexists. split; [reflexivity|]. split; [reflexivity|].
  exact (sendableSteps_after_local_edit (C:=Counter.model)
           (Some {| opt_version := None; opt_clientID := Some 7 |}) 12345
           _ counter_session (Counter.do_step (Counter.fresh 7) 5)
           (Counter.fresh 12) None None None _ eq_refl eq_refl).
Defined.

Lemma echo_of_sent_steps_witness :
  ∃ plugin payload,
    collab (C:=Counter.model)
      (Some {| opt_version := None; opt_clientID := Some 7 |}) 12345 = Ok plugin
    ∧ plugin_sendableSteps plugin counter_session = Some payload
    ∧ plugin_receiveAction plugin counter_session (send_steps payload)
        (replicate (length (send_steps payload)) (send_clientID payload))
      = Ok (CollabConfirm (@Build_CollabState Counter.model 7 [])).
Proof.
  do 2 eexists. split; [reflexivity|]. split; [reflexivity|].
  destruct (echo_of_sent_steps (C:=Counter.model)
              (Some {| opt_version := None; opt_clientID := Some 7 |}) 12345
              _ counter_session _ (Counter.fresh 7) eq_refl eq_refl) as [Hecho _].
  exact Hecho.
Defined.

Lemma foreign_first_confirms_nothing_witness :
  9 ≠ 7 ∧ ([10; 3] : list Z) ≠ []
  ∧ ∃ transform cs,
      receiveAction counter_session [10; 3] [9; 7] 7
      = Ok (TransformAction transform (Some 2%nat) (Some false) (Some cs)
              (Some false)).
Proof.
  assert (H1 : 9 ≠ 7) by lia.
  assert (H2 : ([10; 3] : list Z) ≠ []) by discriminate.
  split; [exact H1|]. split; [exact H2|].
  destruct (foreign_first_confirms_nothing counter_session [10; 3] 9 [7] 7 H1 H2)
    as (_ & _ & Hshape).
  destruct (Hshape _ eq_refl) as (transform & cs & Heq).
  exists transform, cs. exact (f_equal Ok Heq).
Defined.

Lemma synced_stays_synced_witness :
  ∃ a cs,
    receiveAction counter_synced [10; 11] [9; 8] 7 = Ok a
    ∧ action_collabState a = Some cs
    ∧ unconfirmed cs = [].
Proof.
  eexists.
  destruct (synced_stays_synced counter_synced [10; 11] [9; 8] 7 _
              counter_step_appends eq_refl eq_refl eq_refl)
    as [(cs & Hcs & Hqueue) _].
  exists cs. split; [reflexivity|]. split; [exact Hcs | exact Hqueue].
Defined.

Lemma fresh_session_witness :
  ∃ plugin,
    collab (C:=Counter.model)
      (Some {| opt_version := Some 3; opt_clientID := Some 7 |}) 12345 = Ok plugin
    ∧ version (init plugin ()) = 3
    ∧ plugin_sendableSteps plugin
        (@Build_EditorState Counter.model (init plugin ()) (Counter.fresh 0))
      = None.
Proof.
  eexists. split; [reflexivity|].
  destruct (fresh_session (C:=Counter.model)
              (Some {| opt_version := Some 3; opt_clientID := Some 7 |}) 12345
              _ (Counter.fresh 0) eq_refl) as (_ & Hv & _ & Hsend).
  split; [exact (Hv 3 eq_refl) | exact Hsend].
Defined.

(** * Facts about ordered maps *)

Module OrderedmapFacts.
Import Orderedmap.

Section Facts.
Context `{Vs : Values}.

Implicit Types (l : list (string * jsval V)) (k : string) (v : jsval V).

(** ** The array of a list of bindings *)

Lemma length_flat l : length (flat l) = (2 * length l)%nat.
Proof. induction l as [|[k v] l IH]; simpl; lia. Qed.

Lemma flat_app l1 l2 : flat (l1 ++ l2) = flat l1 ++ flat l2.
Proof. induction l1 as [|[k v] l1 IH]; simpl; [done | by rewrite IH]. Qed.

Lemma flat_lookup_key l i :
  flat l !! (2 * i)%nat = (fun p => Str p.1) <$> l !! i.
Proof.
  revert i. induction l as [|[k v] l IH]; intros [|i]; simpl; try done.
  replace (i + S (i + 0))%nat with (S (2 * i)) by lia. simpl. apply IH.
Qed.

Lemma flat_lookup_value l i :
  flat l !! (2 * i + 1)%nat = snd <$> l !! i.
Proof.
  revert i. induction l as [|[k v] l IH]; intros [|i]; simpl; try done.
  replace (i + S (i + 0) + 1)%nat with (S (2 * i + 1)) by lia. simpl. apply IH.
Qed.

Lemma take_flat l i : take (2 * i) (flat l) = flat (take i l).
Proof.
  revert i. induction l as [|[k v] l IH]; intros [|i]; try done.
  replace (2 * S i)%nat with (S (S (2 * i))) by lia.
  cbn [take flat]. by rewrite IH.
Qed.

Lemma drop_flat l i : drop (2 * i) (flat l) = flat (drop i l).
Proof.
  revert i. induction l as [|[k v] l IH]; intros [|i]; try done.
  replace (2 * S i)%nat with (S (S (2 * i))) by lia.
  cbn [drop flat]. by rewrite IH.
Qed.

Lemma read_flat_key l i k v :
  l !! i = Some (k, v) → read (flat l) (Z.of_nat (2 * i)) = Str k.
Proof.
  intros Hi. unfold read. rewrite bool_decide_eq_true_2 by lia.
  by rewrite Nat2Z.id, flat_lookup_key, Hi.
Qed.

Lemma read_flat_value l i k v :
  l !! i = Some (k, v) → read (flat l) (Z.of_nat (2 * i) + 1) = v.
Proof.
  intros Hi. unfold read. rewrite bool_decide_eq_true_2 by lia.
  replace (Z.to_nat (Z.of_nat (2 * i) + 1)) with (2 * i + 1)%nat by lia.
  by rewrite flat_lookup_value, Hi.
Qed.

(** ** Bindings *)

Lemma first_index_Some k l j :
  first_index k l = Some j →
  (∃ v, l !! j = Some (k, v))
  ∧ ∀ j' p, (j' < j)%nat → l !! j' = Some p → p.1 ≠ k.
Proof.
  revert j. induction l as [|[k' v'] l IH]; intros j; simpl; [done|].
  case_bool_decide as Hk.
  - intros [= <-]. subst k'. split; [by eexists | lia].
  - destruct (first_index k l) as [i|]; simpl; [|done]. intros [= <-].
    destruct (IH i eq_refl) as [Hv Hbefore]. split; [done|].
    intros [|j'] p Hj'; simpl; [by intros [= <-] | apply Hbefore; lia].
Qed.

Lemma first_index_None k l : first_index k l = None ↔ k ∉ l.*1.
Proof.
  induction l as [|[k' v'] l IH]; simpl.
  - split; [intros _; apply not_elem_of_nil | done].
  - rewrite not_elem_of_cons. case_bool_decide as Hk.
    + split; [done | intros [Hne _]; congruence].
    + destruct (first_index k l); simpl.
      * split; [done | intros [_ Hnot]; by apply IH in Hnot].
      * split; [intros _; split; [congruence | by apply IH] | done].
Qed.

Lemma first_index_lt k l j : first_index k l = Some j → (j < length l)%nat.
Proof.
  intros Hj. apply first_index_Some in Hj as [[v Hv] _].
  by apply lookup_lt_Some in Hv.
Qed.

Lemma without_delete k l :
  without k l = match first_index k l with Some j => delete j l | None => l end.
Proof.
  induction l as [|[k' v'] l IH]; simpl; [done|].
  case_bool_decide; [done|]. rewrite IH.
  by destruct (first_index k l).
Qed.

Lemma property_first_index k l :
  property l k
  = match first_index k l with
    | Some j => default Undefined (snd <$> l !! j)
    | None => Undefined
    end.
Proof.
  induction l as [|[k' v'] l IH]; simpl; [done|].
  case_bool_decide; [done|]. rewrite IH. by destruct (first_index k l).
Qed.

Lemma property_without_ne k k' l :
  k' ≠ k → property (without k l) k' = property l k'.
Proof.
  intros Hne. induction l as [|[k0 v0] l IH]; simpl; [done|].
  case_bool_decide as H0; simpl.
  - subst k0. by rewrite bool_decide_eq_false_2.
  - by rewrite IH.
Qed.

Lemma property_not_elem k l : k ∉ l.*1 → property l k = Undefined.
Proof.
  intros Hk. apply first_index_None in Hk. by rewrite property_first_index, Hk.
Qed.

Lemma without_keys_elem k l x : x ∈ (without k l).*1 → x ∈ l.*1.
Proof.
  induction l as [|[k' v'] l IH]; simpl; [done|].
  case_bool_decide; simpl; rewrite !elem_of_cons; [by right|].
  intros [->|Hx]; [by left | right; by apply IH].
Qed.

Lemma without_NoDup k l : NoDup l.*1 → NoDup (without k l).*1 ∧ k ∉ (without k l).*1.
Proof.
  induction l as [|[k' v'] l IH]; simpl.
  - intros _. split; [constructor | apply not_elem_of_nil].
  - rewrite NoDup_cons. intros [Hk' Hl]. case_bool_decide as Hk; simpl.
    + subst k'. done.
    + destruct (IH Hl) as [Hnd Hnot]. split.
      * apply NoDup_cons. split; [|done].
        intros Hin. apply Hk'. by apply (without_keys_elem k).
      * rewrite not_elem_of_cons. split; [congruence | done].
Qed.

Lemma without_not_elem k l : k ∉ l.*1 → without k l = l.
Proof.
  intros Hk. apply first_index_None in Hk. by rewrite without_delete, Hk.
Qed.

(** ** [find] *)

Lemma find_loop_flat l k fuel n :
  (length l - n ≤ fuel)%nat →
  find_loop (flat l) (Str k) fuel (2 * n)
  = match first_index k (drop n l) with
    | Some j => Z.of_nat (2 * (n + j))
    | None => -1
    end.
Proof.
  revert n. induction fuel as [|fuel IH]; intros n Hfuel; simpl.
  - by rewrite drop_ge by lia.
  - rewrite length_flat. case_bool_decide as Hn.
    + destruct (lookup_lt_is_Some_2 l n) as [[k' v'] Hkv]; [lia|].
      replace (Z.of_nat (n + (n + 0))) with (Z.of_nat (2 * n)) by lia.
      rewrite (read_flat_key _ _ _ _ Hkv), (drop_S _ _ _ Hkv). simpl.
      case_bool_decide as Hk; [f_equal; lia|].
      replace (n + (n + 0) + 2)%nat with (2 * S n)%nat by lia.
      rewrite IH by lia.
      destruct (first_index k (drop (S n) l)); simpl; [f_equal; lia | done].
    + by rewrite drop_ge by lia.
Qed.

Lemma find_flat l k :
  find (of_bindings l) (Str k)
  = match first_index k l with
    | Some j => Z.of_nat (2 * j)
    | None => -1
    end.
Proof.
  unfold find. simpl. rewrite (find_loop_flat l k _ 0).
  - by rewrite drop_0.
  - rewrite length_flat. lia.
Qed.

(** Whatever the array holds, the scan looks at the even positions only
    and stops at the first one whose element [==] the key. *)
Lemma find_loop_spec (content : list (jsval V)) (key : jsval V) fuel n :
  (length content ≤ 2 * n + 2 * fuel)%nat →
  (find_loop content key fuel (2 * n) = -1
   ∧ ∀ j, (n ≤ j)%nat → (2 * j < length content)%nat →
       loose_eq (read content (Z.of_nat (2 * j))) key = false)
  ∨ (∃ j, (n ≤ j)%nat
       ∧ find_loop content key fuel (2 * n) = Z.of_nat (2 * j)
       ∧ (2 * j < length content)%nat
       ∧ loose_eq (read content (Z.of_nat (2 * j))) key = true
       ∧ ∀ j', (n ≤ j')%nat → (j' < j)%nat →
           loose_eq (read content (Z.of_nat (2 * j'))) key = false).
Proof.
  revert n. induction fuel as [|fuel IH]; intros n Hfuel; simpl.
  - left. split; [done|]. intros j Hj Hlt. lia.
  - case_bool_decide as Hn; [|left; split; [done|]; intros j Hj Hlt; lia].
    replace (n + (n + 0))%nat with (2 * n)%nat by lia.
    destruct (loose_eq (read content (Z.of_nat (2 * n))) key) eqn:Heq.
    + right. exists n. split; [lia|]. split; [done|]. split; [lia|].
      split; [done|]. intros j' H1 H2. lia.
    + replace (2 * n + 2)%nat with (2 * S n)%nat by lia.
      destruct (IH (S n)) as [[Hr Hall]|(j & Hj & Hr & Hlt & Hat & Hbefore)]; [lia| |].
      * left. split; [done|]. intros j Hj Hlt.
        destruct (decide (j = n)) as [->|]; [done | apply Hall; lia].
      * right. exists j. split; [lia|]. do 3 (split; [done|]).
        intros j' H1 H2.
        destruct (decide (j' = n)) as [->|]; [done | apply Hbefore; lia].
Qed.

(** ** [remove], [update] on arrays of bindings *)

Lemma splice_flat l j :
  splice (flat l) (Z.of_nat (2 * j)) 2 = flat (delete j l).
Proof.
  unfold splice. rewrite bool_decide_eq_false_2 by lia. rewrite Nat2Z.id.
  replace (2 * j + 2)%nat with (2 * S j)%nat by lia.
  by rewrite take_flat, drop_flat, <- flat_app, delete_take_drop.
Qed.

Lemma flat_insert l j k v :
  (j < length l)%nat →
  flat (<[j := (k, v)]> l) = <[(2 * j)%nat := Str k]> (<[(2 * j + 1)%nat := v]> (flat l)).
Proof.
  revert j. induction l as [|[k' v'] l IH]; intros [|j] Hj; simpl in *; try lia.
  - done.
  - replace (j + S (j + 0))%nat with (S (2 * j)) by lia.
    replace (S (2 * j) + 1)%nat with (S (2 * j + 1)) by lia.
    simpl. f_equal. f_equal. rewrite IH by lia. done.
Qed.

Lemma write_flat_value l j k v w :
  l !! j = Some (k, w) →
  write (flat l) (Z.of_nat (2 * j) + 1) v = flat (<[j := (k, v)]> l).
Proof.
  intros Hj. pose proof (lookup_lt_Some _ _ _ Hj) as Hlt. unfold write.
  rewrite bool_decide_eq_false_2 by lia.
  replace (Z.to_nat (Z.of_nat (2 * j) + 1)) with (2 * j + 1)%nat by lia.
  rewrite bool_decide_eq_true_2 by (rewrite length_flat; lia).
  rewrite flat_insert by done.
  symmetry. apply list_insert_id.
  rewrite list_lookup_insert_ne by lia. by rewrite flat_lookup_key, Hj.
Qed.

Lemma write_flat_key l j k k2 w :
  l !! j = Some (k, w) →
  write (flat l) (Z.of_nat (2 * j)) (Str k2) = flat (<[j := (k2, w)]> l).
Proof.
  intros Hj. pose proof (lookup_lt_Some _ _ _ Hj) as Hlt. unfold write.
  rewrite bool_decide_eq_false_2 by lia. rewrite Nat2Z.id.
  rewrite bool_decide_eq_true_2 by (rewrite length_flat; lia).
  rewrite flat_insert by done. f_equal.
  symmetry. apply list_insert_id. by rewrite flat_lookup_value, Hj.
Qed.

Lemma get_flat l k : get (of_bindings l) (Str k) = property l k.
Proof.
  unfold get. rewrite find_flat, property_first_index.
  destruct (first_index k l) as [j|] eqn:Hj; [|done].
  rewrite bool_decide_eq_false_2 by lia.
  destruct (first_index_Some _ _ _ Hj) as [[v Hv] _]. cbn [content of_bindings].
  by rewrite (read_flat_value _ _ _ _ Hv), Hv.
Qed.

Lemma remove_flat l k :
  remove (of_bindings l) (Str k) = of_bindings (without k l).
Proof.
  unfold remove. rewrite find_flat, without_delete.
  destruct (first_index k l) as [j|] eqn:Hj; [|done].
  rewrite bool_decide_eq_false_2 by lia. cbn [content of_bindings].
  by rewrite splice_flat.
Qed.

Lemma update_flat_falsy l k v newKey :
  truthy newKey = false →
  update (of_bindings l) (Str k) v newKey = of_bindings (updated k v l).
Proof.
  intros Hfalsy. unfold update, updated, put. rewrite Hfalsy. cbn [andb].
  rewrite find_flat. cbn [content of_bindings].
  destruct (first_index k l) as [j|] eqn:Hj.
  - rewrite bool_decide_eq_false_2 by lia.
    destruct (first_index_Some _ _ _ Hj) as [[w Hw] _].
    by rewrite (write_flat_value _ _ _ _ _ Hw).
  - rewrite bool_decide_eq_true_2 by done. unfold of_bindings.
    by rewrite flat_app.
Qed.

Lemma update_flat_rename l k v k2 :
  k2 ≠ ""%string →
  update (of_bindings l) (Str k) v (Str k2) = of_bindings (renamed k v k2 l).
Proof.
  intros Hk2. unfold update, renamed, put. cbn [truthy loose_eq].
  rewrite (bool_decide_eq_false_2 (k2 = ""%string)) by done. cbn [negb andb].
  assert ((if negb (bool_decide (k2 = k))
           then remove (of_bindings l) (Str k2) else of_bindings l)
          = of_bindings (if bool_decide (k2 = k) then l else without k2 l)) as ->.
  { case_bool_decide; cbn [negb]; [done | by rewrite remove_flat]. }
  set (l' := if bool_decide (k2 = k) then l else without k2 l).
  rewrite find_flat.
  destruct (first_index k l') as [j|] eqn:Hj.
  - rewrite bool_decide_eq_false_2 by lia.
    destruct (first_index_Some _ _ _ Hj) as [[w Hw] _]. cbn [content of_bindings].
    rewrite (write_flat_value _ _ _ _ _ Hw).
    assert (<[j := (k, v)]> l' !! j = Some (k, v)) as Hnew.
    { apply list_lookup_insert_eq. by apply lookup_lt_Some in Hw. }
    rewrite (write_flat_key _ _ _ _ _ Hnew).
    by rewrite list_insert_insert_eq.
  - rewrite bool_decide_eq_true_2 by done. unfold of_bindings.
    by rewrite flat_app.
Qed.

(** ** Reading lists of bindings *)

Lemma put_cons k p k0 v0 l :
  put k p ((k0, v0) :: l)
  = if bool_decide (k0 = k) then p :: l else (k0, v0) :: put k p l.
Proof.
  unfold put. simpl. case_bool_decide; [done|].
  by destruct (first_index k l).
Qed.

Lemma property_put_same k v l k' :
  property (put k (k, v) l) k'
  = if bool_decide (k' = k) then v else property l k'.
Proof.
  induction l as [|[k0 v0] l IH].
  - unfold put. simpl. repeat case_bool_decide; congruence.
  - rewrite put_cons. destruct (decide (k0 = k)) as [->|H0].
    + rewrite bool_decide_eq_true_2 by done. simpl.
      repeat case_bool_decide; congruence.
    + rewrite bool_decide_eq_false_2 by done. simpl.
      rewrite IH. repeat case_bool_decide; congruence.
Qed.

Lemma property_put_rename k k2 v l k' :
  k2 ≠ k → k2 ∉ l.*1 → NoDup l.*1 →
  property (put k (k2, v) l) k'
  = if bool_decide (k' = k2) then v
    else if bool_decide (k' = k) then Undefined else property l k'.
Proof.
  intros Hne. induction l as [|[k0 v0] l IH]; simpl.
  - intros _ _. unfold put. simpl. repeat case_bool_decide; congruence.
  - rewrite not_elem_of_cons, NoDup_cons. intros [H02 Hnot] [H0 Hnd].
    rewrite put_cons. destruct (decide (k0 = k)) as [->|H0k].
    + rewrite bool_decide_eq_true_2 by done. simpl.
      repeat case_bool_decide; try congruence.
      subst k'. by apply property_not_elem.
    + rewrite bool_decide_eq_false_2 by done. simpl.
      rewrite IH by done. repeat case_bool_decide; congruence.
Qed.

Lemma put_keys_elem k p l x : x ∈ (put k p l).*1 → x = p.1 ∨ x ∈ l.*1.
Proof.
  induction l as [|[k0 v0] l IH].
  - unfold put. simpl. rewrite elem_of_cons. intros [->|Hx]; [by left | by right].
  - rewrite put_cons. destruct (decide (k0 = k)) as [->|H0k].
    + rewrite bool_decide_eq_true_2 by done. simpl. rewrite !elem_of_cons.
      intros [->|Hx]; [by left | right; by right].
    + rewrite bool_decide_eq_false_2 by done. simpl. rewrite !elem_of_cons.
      intros [->|Hx]; [right; by left|].
      destruct (IH Hx) as [->|Hin]; [by left | right; by right].
Qed.

Lemma put_NoDup k k2 v l :
  NoDup l.*1 → k2 = k ∨ k2 ∉ l.*1 → NoDup (put k (k2, v) l).*1.
Proof.
  induction l as [|[k0 v0] l IH]; simpl.
  - intros _ _. unfold put. simpl. apply NoDup_singleton.
  - rewrite NoDup_cons, not_elem_of_cons. intros [H0 Hnd] Hk2.
    rewrite put_cons. destruct (decide (k0 = k)) as [->|H0k].
    + rewrite bool_decide_eq_true_2 by done. simpl. apply NoDup_cons.
      split; [|done]. destruct Hk2 as [->|[_ Hnot]]; done.
    + rewrite bool_decide_eq_false_2 by done. simpl. apply NoDup_cons. split.
      * intros Hin. apply put_keys_elem in Hin as [Heq|Hin]; [|done].
        simpl in Heq. destruct Hk2 as [->|[Hne _]]; congruence.
      * apply IH; [done|]. destruct Hk2 as [->|[_ Hnot]]; [by left | by right].
Qed.

Lemma length_without k l :
  length (without k l)
  = if bool_decide (k ∈ l.*1) then (length l - 1)%nat else length l.
Proof.
  induction l as [|[k0 v0] l IH]; cbn [without fmap list_fmap length fst].
  - by case_bool_decide.
  - destruct (decide (k0 = k)) as [->|H0].
    + rewrite (bool_decide_eq_true_2 (k = k)) by done.
      rewrite bool_decide_eq_true_2 by (apply elem_of_cons; by left). simpl. lia.
    + rewrite (bool_decide_eq_false_2 (k0 = k)) by done. simpl.
      rewrite IH. case_bool_decide as Hin.
      * rewrite bool_decide_eq_true_2 by (apply elem_of_cons; by right).
        apply list_elem_of_fmap in Hin as ([? ?] & _ & Hl).
        apply list_elem_of_lookup in Hl as [i Hi]. apply lookup_lt_Some in Hi. lia.
      * rewrite bool_decide_eq_false_2; [done|].
        rewrite elem_of_cons. intros [?|?]; congruence.
Qed.

Lemma size_flat l : size (of_bindings l) = length l.
Proof.
  unfold size. cbn [content of_bindings].
  rewrite length_flat, Nat.shiftr_div_pow2. change (2 ^ 1)%nat with 2%nat.
  rewrite Nat.mul_comm. by apply Nat.div_mul.
Qed.

Lemma property_app l1 l2 k :
  property (l1 ++ l2) k
  = if bool_decide (k ∈ l1.*1) then property l1 k else property l2 k.
Proof.
  induction l1 as [|[k0 v0] l1 IH]; cbn [app property fmap list_fmap fst].
  - case_bool_decide as Hin; [by apply elem_of_nil in Hin | done].
  - destruct (decide (k0 = k)) as [->|H0].
    + rewrite (bool_decide_eq_true_2 (k = k)) by done.
      by rewrite bool_decide_eq_true_2 by (apply elem_of_cons; by left).
    + rewrite (bool_decide_eq_false_2 (k0 = k)) by done. rewrite IH.
      case_bool_decide as Hin.
      * by rewrite bool_decide_eq_true_2 by (apply elem_of_cons; by right).
      * rewrite bool_decide_eq_false_2; [done|].
        rewrite elem_of_cons. intros [?|?]; congruence.
Qed.

(** ** [forEach], [subtract] *)

Lemma forEach_loop_flat {St} l (f : jsval V → jsval V → St → St) fuel n s :
  (length l - n ≤ fuel)%nat →
  forEach_loop (flat l) f fuel (2 * n) s
  = fold_left (fun s p => f (Str p.1) p.2 s) (drop n l) s.
Proof.
  revert n s. induction fuel as [|fuel IH]; intros n s Hfuel; simpl.
  - by rewrite drop_ge by lia.
  - rewrite length_flat. case_bool_decide as Hn.
    + destruct (lookup_lt_is_Some_2 l n) as [[k v] Hkv]; [lia|].
      replace (Z.of_nat (n + (n + 0))) with (Z.of_nat (2 * n)) by lia.
      rewrite (read_flat_key _ _ _ _ Hkv), (read_flat_value _ _ _ _ Hkv).
      rewrite (drop_S _ _ _ Hkv). simpl.
      replace (n + (n + 0) + 2)%nat with (2 * S n)%nat by lia.
      apply IH. lia.
    + by rewrite drop_ge by lia.
Qed.

Lemma forEach_flat {St} l (f : jsval V → jsval V → St → St) s :
  forEach (of_bindings l) f s = fold_left (fun s p => f (Str p.1) p.2 s) l s.
Proof.
  unfold forEach. cbn [content of_bindings].
  rewrite (forEach_loop_flat l f _ 0).
  - by rewrite drop_0.
  - rewrite length_flat. lia.
Qed.

Lemma subtract_flat l l' :
  subtract (of_bindings l) (AMap (of_bindings l')) = of_bindings (minus l l').
Proof.
  unfold subtract, minus. cbn [from]. rewrite forEach_flat.
  revert l. induction l' as [|[k v] l' IH]; intros l; simpl; [done|].
  by rewrite remove_flat, IH.
Qed.

Lemma minus_keys_elem l l' x : x ∈ (minus l l').*1 → x ∈ l.*1.
Proof.
  unfold minus. revert l. induction l' as [|[k v] l' IH]; intros l; simpl; [done|].
  intros Hx. apply IH in Hx. by apply without_keys_elem in Hx.
Qed.

Lemma minus_NoDup l l' : NoDup l.*1 → NoDup (minus l l').*1.
Proof.
  unfold minus. revert l. induction l' as [|[k v] l' IH]; intros l Hnd; simpl; [done|].
  apply IH. by apply without_NoDup.
Qed.

Lemma minus_not_elem l l' k :
  NoDup l.*1 → k ∈ l'.*1 → k ∉ (minus l l').*1.
Proof.
  revert l. induction l' as [|[k0 v0] l' IH]; intros l Hnd; simpl.
  - by intros ?%elem_of_nil.
  - rewrite elem_of_cons. intros [->|Hin].
    + intros Hx. apply (minus_keys_elem _ l') in Hx.
      by apply (without_NoDup k0 l Hnd).
    + apply (IH (without k0 l)); [by apply without_NoDup | done].
Qed.

Lemma property_minus l l' k :
  NoDup l.*1 →
  property (minus l l') k
  = if bool_decide (k ∈ l'.*1) then Undefined else property l k.
Proof.
  intros Hnd. case_bool_decide as Hin.
  - apply property_not_elem. by apply minus_not_elem.
  - clear Hnd. unfold minus. revert l.
    induction l' as [|[k0 v0] l' IH]; intros l; simpl in *; [done|].
    rewrite not_elem_of_cons in Hin. destruct Hin as [Hne Hin].
    rewrite IH by done. by apply property_without_ne.
Qed.

Lemma filter_all {A} (P : A → Prop) `{!∀ x, Decision (P x)} (l : list A) :
  (∀ x, x ∈ l → P x) → filter P l = l.
Proof.
  induction l as [|x l IH]; intros Hall; [done|].
  rewrite filter_cons_True by (apply Hall, elem_of_cons; by left).
  f_equal. apply IH. intros y Hy. apply Hall, elem_of_cons. by right.
Qed.

Lemma without_filter k l :
  NoDup l.*1 → without k l = filter (fun p => p.1 ≠ k) l.
Proof.
  induction l as [|[k0 v0] l IH]; simpl; [done|].
  rewrite NoDup_cons. intros [Hk0 Hnd].
  destruct (decide (k0 = k)) as [->|Hne].
  - rewrite (bool_decide_eq_true_2 (k = k)) by done.
    rewrite filter_cons_False by (simpl; by intros H).
    symmetry. apply filter_all. intros [k1 v1] Hin. simpl. intros ->.
    apply Hk0. apply list_elem_of_fmap. by exists (k, v1).
  - rewrite (bool_decide_eq_false_2 (k0 = k)) by done.
    rewrite filter_cons_True by done. by rewrite IH.
Qed.

Lemma minus_filter l l' :
  NoDup l.*1 → minus l l' = filter (fun p => p.1 ∉ l'.*1) l.
Proof.
  unfold minus. revert l. induction l' as [|[k0 v0] l' IH]; intros l Hnd; simpl.
  - symmetry. apply filter_all. intros p _. apply not_elem_of_nil.
  - rewrite IH by (by apply without_NoDup).
    rewrite without_filter by done. rewrite list_filter_filter.
    apply list_filter_iff. intros [k1 v1]. simpl.
    rewrite not_elem_of_cons. tauto.
Qed.

(** ** [from] on a plain object *)

Lemma from_object_content (props : list (string * jsval V)) keys acc :
  fold_left (fun content prop => content ++ [Str prop; property props prop]) keys acc
  = acc ++ flat (map (fun prop => (prop, property props prop)) keys).
Proof.
  revert acc. induction keys as [|key keys IH]; intros acc; simpl.
  - by rewrite app_nil_r.
  - rewrite IH. by rewrite <- app_assoc.
Qed.

Lemma from_object props :
  from (AnObject props)
  = of_bindings (map (fun prop => (prop, property props prop)) props.*1).
Proof. unfold from, of_bindings. by rewrite from_object_content. Qed.

Lemma property_tabulate (g : string → jsval V) keys k :
  property (map (fun prop => (prop, g prop)) keys) k
  = if bool_decide (k ∈ keys) then g k else Undefined.
Proof.
  induction keys as [|key keys IH]; cbn [map property].
  - case_bool_decide as Hin; [by apply elem_of_nil in Hin | done].
  - destruct (decide (key = k)) as [->|Hne].
    + rewrite (bool_decide_eq_true_2 (k = k)) by done.
      by rewrite bool_decide_eq_true_2 by (apply elem_of_cons; by left).
    + rewrite (bool_decide_eq_false_2 (key = k)) by done. rewrite IH.
      case_bool_decide as Hin.
      * by rewrite bool_decide_eq_true_2 by (apply elem_of_cons; by right).
      * rewrite bool_decide_eq_false_2; [done|].
        rewrite elem_of_cons. intros [?|?]; congruence.
Qed.

Lemma tabulate_NoDup props :
  NoDup props.*1 →
  map (fun prop => (prop, property props prop)) props.*1 = props.
Proof.
  induction props as [|[k v] props IH]; cbn [fmap list_fmap map fst property].
  - done.
  - rewrite NoDup_cons. intros [Hk Hnd].
    rewrite (bool_decide_eq_true_2 (k = k)) by done. f_equal.
    rewrite <- (IH Hnd) at 2. apply map_ext_in. intros key Hkey.
    apply list_elem_of_In in Hkey.
    rewrite bool_decide_eq_false_2; [done|]. by intros ->.
Qed.

End Facts.

(** ** Properties of the methods *)

Section Properties.
Context `{Vs : Values}.

Implicit Types (l : list (string * jsval V)) (k : string) (v : jsval V).

(** X1. [find], on any array: the result is [-1] and no even position holds an
    element [==] to the key, or it is the first even position that does. Odd
    positions (the values) are never compared. *)
Theorem find_first_match (this : OrderedMap) (key : jsval V) :
  let hit j := loose_eq (read (content this) (Z.of_nat (2 * j))) key in
  (find this key = -1
   ∧ ∀ j, (2 * j < length (content this))%nat → hit j = false)
  ∨ (∃ j, find this key = Z.of_nat (2 * j)
       ∧ (2 * j < length (content this))%nat
       ∧ hit j = true
       ∧ ∀ j', (j' < j)%nat → hit j' = false).
Proof.
  intros hit. unfold find.
  destruct (find_loop_spec (content this) key (length (content this)) 0)
    as [[Hr Hall]|(j & _ & Hr & Hlt & Hat & Hbefore)]; [lia| |].
  - left. split; [done|]. intros j Hj. apply Hall; [lia | done].
  - right. exists j. do 3 (split; [done|]). intros j' Hj'. apply Hbefore; lia.
Qed.

(** X2. [get] on a map of bindings [l]: the value of the first binding of the
    key, and [undefined] when the key has no binding. *)
Theorem get_first_binding l k :
  get (of_bindings l) (Str k) = property l k
  ∧ (k ∉ l.*1 → get (of_bindings l) (Str k) = Undefined)
  ∧ (∀ j v, first_index k l = Some j → l !! j = Some (k, v) →
       get (of_bindings l) (Str k) = v).
Proof.
  rewrite get_flat. split; [done|]. split.
  - apply property_not_elem.
  - intros j v Hj Hv. by rewrite property_first_index, Hj, Hv.
Qed.

(** X3. [remove] takes out the first binding of the key and nothing else: the
    other bindings keep their order, every other key reads as before, the
    size drops by one when the key was bound, and a key without binding
    leaves the map as it is. *)
Theorem remove_first_binding l k :
  remove (of_bindings l) (Str k) = of_bindings (without k l)
  ∧ (k ∉ l.*1 → remove (of_bindings l) (Str k) = of_bindings l)
  ∧ (∀ k', k' ≠ k →
       get (remove (of_bindings l) (Str k)) (Str k') = get (of_bindings l) (Str k'))
  ∧ size (remove (of_bindings l) (Str k))
    = if bool_decide (k ∈ l.*1) then (size (of_bindings l) - 1)%nat
      else size (of_bindings l).
Proof.
  rewrite remove_flat. split; [done|]. split; [|split].
  - intros Hk. by rewrite without_not_elem.
  - intros k' Hne. rewrite !get_flat. by apply property_without_ne.
  - rewrite !size_flat. apply length_without.
Qed.

(** X4. With distinct keys, a removed key reads [undefined] afterwards. *)
Theorem get_after_remove l k :
  NoDup l.*1 → get (remove (of_bindings l) (Str k)) (Str k) = Undefined.
Proof.
  intros Hnd. rewrite remove_flat, get_flat.
  apply property_not_elem. by apply without_NoDup.
Qed.

(** X5. [update(key, value)] without a new key (omitted, or the empty string,
    which is falsy): the value of the first binding of the key is replaced
    in place, or the binding is added at the end when the key is new.
    Afterwards the key reads the new value, every other key reads as
    before, and the size grows by one exactly when the key was new. *)
Theorem update_in_place l k v (newKey : jsval V) :
  newKey = Undefined ∨ newKey = Str "" →
  let m' := update (of_bindings l) (Str k) v newKey in
  m' = of_bindings (updated k v l)
  ∧ (∀ k', get m' (Str k') = if bool_decide (k' = k) then v
                             else get (of_bindings l) (Str k'))
  ∧ (∀ j, first_index k l = Some j → updated k v l = <[j := (k, v)]> l)
  ∧ (k ∉ l.*1 → updated k v l = l ++ [(k, v)])
  ∧ size m' = if bool_decide (k ∈ l.*1) then size (of_bindings l)
              else S (size (of_bindings l)).
Proof.
  intros HnewKey m'. unfold m'.
  rewrite update_flat_falsy by (by destruct HnewKey as [->| ->]).
  split; [done|]. split; [|split; [|split]].
  - intros k'. rewrite !get_flat. apply property_put_same.
  - intros j Hj. unfold updated, put. by rewrite Hj.
  - intros Hk. apply first_index_None in Hk. unfold updated, put. by rewrite Hk.
  - rewrite !size_flat. unfold updated, put.
    destruct (first_index k l) as [j|] eqn:Hj.
    + rewrite length_insert. rewrite bool_decide_eq_true_2; [done|].
      destruct (first_index_Some _ _ _ Hj) as [[w Hw] _].
      apply list_elem_of_fmap. exists (k, w). split; [done|].
      by eapply list_elem_of_lookup_2.
    + rewrite length_app. simpl.
      rewrite bool_decide_eq_false_2 by (by apply first_index_None). lia.
Qed.

(** X6. [update(key, value, newKey)] with a new key different from the key, on
    a map with distinct keys: a binding of the new key that exists is taken
    out, and the binding of the key becomes the binding of the new key with
    the new value, at the place where the key was (at the end when the key
    was not bound). Afterwards the new key reads the value, the old key
    reads [undefined], and every other key reads as before. *)
Theorem update_rename l k v k2 :
  NoDup l.*1 → k2 ≠ ""%string → k2 ≠ k →
  let m' := update (of_bindings l) (Str k) v (Str k2) in
  m' = of_bindings (renamed k v k2 l)
  ∧ (∀ j, first_index k (without k2 l) = Some j →
       renamed k v k2 l = <[j := (k2, v)]> (without k2 l))
  ∧ get m' (Str k2) = v
  ∧ get m' (Str k) = Undefined
  ∧ (∀ k', k' ≠ k2 → k' ≠ k → get m' (Str k') = get (of_bindings l) (Str k')).
Proof.
  intros Hnd Hk2 Hne m'. unfold m'. rewrite update_flat_rename by done.
  split; [done|].
  assert (renamed k v k2 l = put k (k2, v) (without k2 l)) as Hren.
  { unfold renamed. by rewrite bool_decide_eq_false_2. }
  destruct (without_NoDup k2 l Hnd) as [Hnd' Hnot].
  assert (∀ k', get (of_bindings (renamed k v k2 l)) (Str k')
    = if bool_decide (k' = k2) then v
      else if bool_decide (k' = k) then Undefined
      else property (without k2 l) k') as Hget.
  { intros k'. rewrite get_flat, Hren. by apply property_put_rename. }
  split; [|split; [|split]].
  - intros j Hj. rewrite Hren. unfold put. by rewrite Hj.
  - rewrite Hget. by rewrite bool_decide_eq_true_2.
  - rewrite Hget. rewrite bool_decide_eq_false_2 by done.
    by rewrite bool_decide_eq_true_2.
  - intros k' H1 H2. rewrite Hget, get_flat.
    rewrite !bool_decide_eq_false_2 by done. by apply property_without_ne.
Qed.

(** X7. [update(key, value, key)]: a new key equal to the key changes nothing
    more than [update(key, value)]. *)
Theorem update_same_key l k v :
  update (of_bindings l) (Str k) v (Str k)
  = update (of_bindings l) (Str k) v Undefined.
Proof.
  rewrite (update_flat_falsy l k v Undefined) by done.
  destruct (decide (k = ""%string)) as [->|Hk].
  - by rewrite update_flat_falsy.
  - rewrite update_flat_rename by done. unfold renamed, updated.
    by rewrite bool_decide_eq_true_2.
Qed.

(** X8. [addToStart] and [addToEnd] on a map with distinct keys: a binding of
    the key that exists is taken out, and the new binding is the first,
    respectively the last one. Either way the key reads the value, every
    other key reads as before, and the two maps have the same size. *)
Theorem addToStart_addToEnd l k v :
  NoDup l.*1 →
  let first := addToStart (of_bindings l) (Str k) v in
  let last := addToEnd (of_bindings l) (Str k) v in
  first = of_bindings ((k, v) :: without k l)
  ∧ last = of_bindings (without k l ++ [(k, v)])
  ∧ get first (Str k) = v
  ∧ get last (Str k) = v
  ∧ (∀ k', k' ≠ k →
       get first (Str k') = get (of_bindings l) (Str k')
       ∧ get last (Str k') = get (of_bindings l) (Str k'))
  ∧ size first = size last
  ∧ size last = if bool_decide (k ∈ l.*1) then size (of_bindings l)
                else S (size (of_bindings l)).
Proof.
  intros Hnd first last.
  assert (first = of_bindings ((k, v) :: without k l)) as Hfirst.
  { unfold first, addToStart. by rewrite remove_flat. }
  assert (last = of_bindings (without k l ++ [(k, v)])) as Hlast.
  { unfold last, addToEnd. rewrite remove_flat. unfold of_bindings. simpl.
    by rewrite flat_app. }
  destruct (without_NoDup k l Hnd) as [_ Hnot].
  rewrite Hfirst, Hlast. do 2 (split; [done|]). rewrite !get_flat, !size_flat.
  split; [|split; [|split; [|split]]].
  - simpl. by rewrite bool_decide_eq_true_2.
  - rewrite property_app, bool_decide_eq_false_2 by done. simpl.
    by rewrite bool_decide_eq_true_2.
  - intros k' Hne. rewrite !get_flat. split.
    + simpl. rewrite bool_decide_eq_false_2 by done.
      by apply property_without_ne.
    + rewrite property_app. simpl.
      rewrite (bool_decide_eq_false_2 (k = k')) by done.
      rewrite <- (property_without_ne k k' l) by done.
      case_bool_decide as Hin; [done|]. symmetry. by apply property_not_elem.
  - rewrite length_app. simpl. lia.
  - rewrite length_app, length_without. simpl.
    case_bool_decide as Hin; [|lia].
    apply list_elem_of_fmap in Hin as ([? ?] & _ & Hl).
    apply list_elem_of_lookup in Hl as [i Hi]. apply lookup_lt_Some in Hi. lia.
Qed.

(** X9. [forEach] calls [f] once per binding, first to last, with the key and
    the value of the binding. *)
Theorem forEach_in_order {St : Type} l (f : jsval V → jsval V → St → St) (s : St) :
  forEach (of_bindings l) f s = fold_left (fun s p => f (Str p.1) p.2 s) l s.
Proof. apply forEach_flat. Qed.

(** X10. [subtract] on maps with distinct keys: the keys of the argument read
    [undefined] in the result, every other key reads as in the receiver, and
    the bindings that stay keep their order. *)
Theorem subtract_lookup l l' :
  NoDup l.*1 →
  let m' := subtract (of_bindings l) (AMap (of_bindings l')) in
  m' = of_bindings (minus l l')
  ∧ (∀ k, get m' (Str k) = if bool_decide (k ∈ l'.*1) then Undefined
                           else get (of_bindings l) (Str k))
  ∧ minus l l' = filter (fun p => p.1 ∉ l'.*1) l.
Proof.
  intros Hnd m'. unfold m'. rewrite subtract_flat. split; [done|]. split.
  - intros k. rewrite !get_flat. by apply property_minus.
  - by apply minus_filter.
Qed.

(** X11. The methods that build maps keep the array well formed and the keys
    distinct: applied to a map of bindings with distinct keys (and, for
    [subtract], any argument map), each returns a map of bindings with
    distinct keys. *)
Theorem distinct_keys_preserved l l' k v (newKey : jsval V) :
  NoDup l.*1 →
  newKey = Undefined ∨ (∃ k2, newKey = Str k2) →
  ∀ m', m' = remove (of_bindings l) (Str k)
        ∨ m' = update (of_bindings l) (Str k) v newKey
        ∨ m' = addToStart (of_bindings l) (Str k) v
        ∨ m' = addToEnd (of_bindings l) (Str k) v
        ∨ m' = subtract (of_bindings l) (AMap (of_bindings l')) →
  ∃ r, m' = of_bindings r ∧ NoDup r.*1.
Proof.
  intros Hnd HnewKey m' Hm'.
  destruct (without_NoDup k l Hnd) as [Hnd' Hnot].
  destruct Hm' as [->|[->|[->|[->| ->]]]].
  - exists (without k l). by rewrite remove_flat.
  - destruct HnewKey as [->|[k2 ->]].
    + exists (updated k v l). rewrite update_flat_falsy by done.
      split; [done|]. apply put_NoDup; [done | by left].
    + destruct (decide (k2 = ""%string)) as [->|Hk2].
      * exists (updated k v l). rewrite update_flat_falsy by done.
        split; [done|]. apply put_NoDup; [done | by left].
      * exists (renamed k v k2 l). rewrite update_flat_rename by done.
        split; [done|]. unfold renamed. case_bool_decide as Heq.
        -- apply put_NoDup; [done | by left].
        -- destruct (without_NoDup k2 l Hnd) as [Hnd2 Hnot2].
           apply put_NoDup; [done | by right].
  - exists ((k, v) :: without k l). unfold addToStart. rewrite remove_flat.
    split; [done|]. simpl. by apply NoDup_cons.
  - exists (without k l ++ [(k, v)]). unfold addToEnd. rewrite remove_flat.
    split; [unfold of_bindings; simpl; by rewrite flat_app|].
    rewrite fmap_app. simpl. apply NoDup_app. split; [done|].
    split; [|apply NoDup_singleton].
    intros x Hx ->%list_elem_of_singleton. done.
  - exists (minus l l'). rewrite subtract_flat. split; [done|].
    by apply minus_NoDup.
Qed.

(** X12. [prepend] and [append] given an ordered map, on maps with distinct
    keys: the bindings of the argument come first (prepend) or last
    (append), and the bindings of the receiver whose key the argument does
    not bind fill the other side, in their order. Both results read the
    same: a key of the argument reads as in the argument, any other key as
    in the receiver; an empty argument gives back the receiver. *)
Theorem prepend_append_maps l l' :
  NoDup l.*1 →
  prepend (of_bindings l) (AMap (of_bindings l'))
  = Ok (of_bindings (l' ++ filter (fun p => p.1 ∉ l'.*1) l))
  ∧ append (of_bindings l) (AMap (of_bindings l'))
    = Ok (of_bindings (filter (fun p => p.1 ∉ l'.*1) l ++ l'))
  ∧ (∀ m' k,
       prepend (of_bindings l) (AMap (of_bindings l')) = Ok m'
       ∨ append (of_bindings l) (AMap (of_bindings l')) = Ok m' →
       get m' (Str k) = if bool_decide (k ∈ l'.*1) then get (of_bindings l') (Str k)
                        else get (of_bindings l) (Str k))
  ∧ (l' = [] →
     prepend (of_bindings l) (AMap (of_bindings l')) = Ok (of_bindings l)
     ∧ append (of_bindings l) (AMap (of_bindings l')) = Ok (of_bindings l)).
Proof.
  intros Hnd.
  assert (prepend (of_bindings l) (AMap (of_bindings l'))
          = Ok (of_bindings (l' ++ minus l l'))) as Hpre.
  { unfold prepend. cbn [no_size mbind completion_bind]. rewrite size_flat.
    case_bool_decide as Hempty.
    - apply length_zero_iff_nil in Hempty. by subst l'.
    - cbn [from]. rewrite subtract_flat. unfold of_bindings. cbn [content].
      by rewrite flat_app. }
  assert (append (of_bindings l) (AMap (of_bindings l'))
          = Ok (of_bindings (minus l l' ++ l'))) as Happ.
  { unfold append. cbn [no_size mbind completion_bind]. rewrite size_flat.
    case_bool_decide as Hempty.
    - apply length_zero_iff_nil in Hempty. subst l'. unfold minus. simpl.
      by rewrite app_nil_r.
    - cbn [from]. rewrite subtract_flat. unfold of_bindings. cbn [content].
      by rewrite flat_app. }
  rewrite Hpre, Happ, <- minus_filter by done.
  split; [done|]. split; [done|]. split.
  - intros m' k [[= <-]|[= <-]]; rewrite !get_flat, property_app.
    + case_bool_decide; [done|].
      rewrite property_minus by done. by rewrite bool_decide_eq_false_2.
    + destruct (decide (k ∈ l'.*1)) as [Hin'|Hin'].
      * rewrite (bool_decide_eq_true_2 _ Hin').
        by rewrite bool_decide_eq_false_2 by (by apply minus_not_elem).
      * rewrite (bool_decide_eq_false_2 _ Hin').
        pose proof (property_minus l l' k Hnd) as Hminus.
        rewrite (bool_decide_eq_false_2 _ Hin') in Hminus. rewrite <- Hminus.
        case_bool_decide as Hin; [done|].
        rewrite (property_not_elem _ _ Hin'). symmetry. by apply property_not_elem.
  - intros ->. unfold minus. simpl. by rewrite app_nil_r.
Qed.

(** X13. [prepend] and [append] on what is not an ordered map, for any
    receiver: [null] or [undefined] throws a [TypeError]; a plain object
    that has no truthy [size] property is ignored and the receiver comes
    back unchanged, its bindings not added. *)
Theorem prepend_append_not_a_map (this : OrderedMap)
    (props : list (string * jsval V)) :
  prepend this Nullish = Throw (TypeError PropertyOfUndefined)
  ∧ append this Nullish = Throw (TypeError PropertyOfUndefined)
  ∧ (truthy (property props "size") = false →
     prepend this (AnObject props) = Ok this
     ∧ append this (AnObject props) = Ok this)
  ∧ ("size"%string ∉ props.*1 → truthy (property props "size") = false).
Proof.
  split; [done|]. split; [done|]. split.
  - intros Hsize. unfold prepend, append. simpl. by rewrite Hsize.
  - intros Hnot. by rewrite property_not_elem.
Qed.

(** X14. [OrderedMap.from]: an ordered map is returned as it is; [null] gives
    the empty map; a plain object gives the map of its properties in
    enumeration order, so that every key reads what the property reads in
    the object and the size is the number of properties. *)
Theorem from_reads_like_the_object (props : list (string * jsval V)) k
    (m : OrderedMap) (key : jsval V) :
  from (AMap m) = m
  ∧ size (from Nullish) = O
  ∧ get (from Nullish) key = Undefined
  ∧ get (from (AnObject props)) (Str k) = property props k
  ∧ size (from (AnObject props)) = length props
  ∧ (NoDup props.*1 → from (AnObject props) = of_bindings props).
Proof.
  split; [done|]. split; [done|]. split; [done|].
  rewrite from_object, get_flat, size_flat, property_tabulate.
  split; [|split].
  - case_bool_decide as Hin; [done|]. symmetry. by apply property_not_elem.
  - by rewrite length_map, length_fmap.
  - intros Hnd. by rewrite tabulate_NoDup.
Qed.

End Properties.
(** ** Concrete runs *)

Lemma sample_NoDup : NoDup sample.*1.
Proof. by apply (bool_decide_unpack _). Qed.

(** With a key bound twice, [remove] takes out the first binding only and
    the key then reads the second one. *)
Example remove_leaves_second_binding :
  get (remove (of_bindings (sample ++ [("a"%string, Str "y")])) (Str "a")) (Str "a")
  = Str "y".
Proof. reflexivity. Qed.

(** An array of odd length whose last element is a key: the key is found
    and reads [undefined]; [update] then grows the array by the value. *)
Example odd_array :
  let m : OrderedMap (Vs:=with_null) := {| content := [Str "a"] |} in
  find m (Str "a") = 0
  ∧ get m (Str "a") = Undefined
  ∧ update m (Str "a") (Str "x") Undefined = of_bindings [("a"%string, Str "x")].
Proof. by repeat split. Qed.

Lemma get_after_remove_witness :
  NoDup sample.*1
  ∧ get (remove (of_bindings sample) (Str "b")) (Str "b") = Undefined.
Proof.
  split; [exact sample_NoDup|].
  exact (get_after_remove sample "b" sample_NoDup).
Defined.

Lemma update_in_place_witness :
  (@Str (@V with_null) "" = Undefined ∨ @Str (@V with_null) "" = Str "")
  ∧ update (of_bindings sample) (Str "b") (Str "y") (Str "")
    = of_bindings [("a"%string, Str "x"); ("b"%string, Str "y");
                   ("c"%string, Undefined)].
Proof.
  assert (H : @Str (@V with_null) "" = Undefined ∨ @Str (@V with_null) "" = Str "")
    by (right; reflexivity).
  split; [exact H|].
  destruct (update_in_place sample "b" (Str "y") (Str "") H) as [Hm _].
  exact Hm.
Defined.

Lemma update_rename_witness :
  NoDup sample.*1 ∧ "c"%string ≠ ""%string ∧ "c"%string ≠ "a"%string
  ∧ update (of_bindings sample) (Str "a") (Str "y") (Str "c")
    = of_bindings [("c"%string, Str "y"); ("b"%string, Other ())]
  ∧ get (update (of_bindings sample) (Str "a") (Str "y") (Str "c")) (Str "a")
    = Undefined.
Proof.
  assert (H1 : "c"%string ≠ ""%string) by discriminate.
  assert (H2 : "c"%string ≠ "a"%string) by discriminate.
  destruct (update_rename sample "a" (Str "y") "c" sample_NoDup H1 H2)
    as (Hm & _ & _ & Hold & _).
  split; [exact sample_NoDup|]. split; [exact H1|]. split; [exact H2|].
  split; [exact Hm | exact Hold].
Defined.

Lemma addToStart_addToEnd_witness :
  NoDup sample.*1
  ∧ addToStart (of_bindings sample) (Str "b") (Str "y")
    = of_bindings [("b"%string, Str "y"); ("a"%string, Str "x");
                   ("c"%string, Undefined)]
  ∧ addToEnd (of_bindings sample) (Str "b") (Str "y")
    = of_bindings [("a"%string, Str "x"); ("c"%string, Undefined);
                   ("b"%string, Str "y")].
Proof.
  destruct (addToStart_addToEnd sample "b" (Str "y") sample_NoDup)
    as (Hfirst & Hlast & _).
  split; [exact sample_NoDup|]. split; [exact Hfirst | exact Hlast].
Defined.

Lemma subtract_lookup_witness :
  NoDup sample.*1
  ∧ subtract (of_bindings sample) (AMap (of_bindings sample'))
    = of_bindings [("a"%string, Str "x"); ("b"%string, Other ())].
Proof.
  destruct (subtract_lookup sample sample' sample_NoDup) as (Hm & _ & _).
  split; [exact sample_NoDup | exact Hm].
Defined.

Lemma distinct_keys_preserved_witness :
  NoDup sample.*1
  ∧ (@Str (@V with_null) "c" = Undefined ∨ (∃ k2, @Str (@V with_null) "c" = Str k2))
  ∧ ∃ r, update (of_bindings sample) (Str "a") (Str "y") (Str "c") = of_bindings r
         ∧ NoDup r.*1.
Proof.
  assert (H : @Str (@V with_null) "c" = Undefined
              ∨ (∃ k2, @Str (@V with_null) "c" = Str k2))
    by (right; by exists "c"%string).
  split; [exact sample_NoDup|]. split; [exact H|].
  apply (distinct_keys_preserved sample sample' "a" (Str "y") (Str "c")
           sample_NoDup H).
  right. left. reflexivity.
Defined.

Lemma prepend_append_maps_witness :
  NoDup sample.*1
  ∧ prepend (of_bindings sample) (AMap (of_bindings sample'))
    = Ok (of_bindings [("c"%string, Str "z"); ("d"%string, Str "w");
                       ("a"%string, Str "x"); ("b"%string, Other ())])
  ∧ append (of_bindings sample) (AMap (of_bindings sample'))
    = Ok (of_bindings [("a"%string, Str "x"); ("b"%string, Other ());
                       ("c"%string, Str "z"); ("d"%string, Str "w")]).
Proof.
  destruct (prepend_append_maps sample sample' sample_NoDup)
    as (Hpre & Happ & _).
  split; [exact sample_NoDup|]. split; [exact Hpre | exact Happ].
Defined.

End OrderedmapFacts.
